(** * kothak: concurrent bring-up of backend resources and their registry

    Shallow embedding of [internal/kothak/kothak.go]:
    - the configuration records read by [New];
    - every bring-up goroutine as a small program over the external
      connectors it calls (object storage providers, redigo, sqldb);
    - [New] as a pool of such programs interleaved by a schedule, followed
      by the [group.Wait] join and the [errs[0]] aggregation;
    - the registry accessors ([Get*], [MustGet*]) and [CloseAll].

    Tracing (the spans, and the [span] variable the goroutines assign) and
    the [logger.Debugf] lines have no influence on the values and are left
    out. *)

From stdpp Require Import gmap strings list fin_maps pretty.
From Stdlib Require Import ZArith.

Open Scope string_scope.
Open Scope list_scope.

(** ** Data model *)

(** A Go [error] value is identified with its message. *)
Definition error := string.

(** Opaque references handed out by the external packages
    ([*sqlx.DB], [redis.Redis], storage providers, credentials, ...). *)
Definition ref := nat.

Inductive result (A : Type) : Type :=
| Ok (a : A)
| Err (e : error).
Arguments Ok {A} a.
Arguments Err {A} e.

Record GCSConfig := { JSONKey : string }.

Record S3Config := {
  ClientID : string;
  ClientSecret : string;
  DisableSSL : bool;
  ForcePathStyle : bool
}.

Record ObjectStorageConfig := {
  os_Name : string;
  Provider : string;
  Bucket : string;
  BucketProto : string;
  BucketURL : string;
  Region : string;
  Endpoint : string;
  GCS : GCSConfig;
  S3 : S3Config
}.

Record RedisConnConfig := { rd_Name : string; Address : string }.

Record RedisConfig := {
  MaxActive : Z;
  MaxIdle : Z;
  Timeout : Z;
  Rds : list RedisConnConfig
}.

Record ConnConfig := {
  DSN : string;
  MaxRetry : Z;
  MaxOpenConnections : Z;
  MaxIdleConnections : Z
}.

Record SQLDBConfig := {
  db_Name : string;
  Driver : string;
  LeaderConnConfig : ConnConfig;
  ReplicaConnConfig : ConnConfig
}.

(** Modelled from the spec: the declaration of [DBConfig] is not part of
    [kothak.go]; [New] only reads [SQLDBs] and calls [SetDefault].  The
    family-wide defaults are the ones of the configuration schema. *)
Record DBConfig := {
  DefaultMaxRetry : Z;
  DefaultMaxOpenConnections : Z;
  DefaultMaxIdleConnections : Z;
  SQLDBs : list SQLDBConfig
}.

Record Config := {
  cfg_DBConfig : DBConfig;
  cfg_RedisConfig : RedisConfig;
  cfg_ObjectStorageConfig : list ObjectStorageConfig
}.

(** Modelled from the spec: the provider identifiers
    [objectstorage.StorageLocal] ... [objectstorage.StorageMinio]. *)
Definition StorageLocal : string := "local".
Definition StorageGCS : string := "gcs".
Definition StorageS3 : string := "s3".
Definition StorageDO : string := "do".
Definition StorageMinio : string := "minio".

(** Arguments of the external constructors. *)
Record gcs_Config := {
  gcs_base : ref;
  gcs_Bucket : string;
  gcs_BucketProto : string;
  gcs_BucketURL : string
}.

Record s3_Config := {
  s3_base : ref;
  s3_Bucket : string;
  s3_BucketProto : string;
  s3_BucketURL : string;
  s3_Region : string;
  s3_Endpoint : string;
  s3_DisableSSL : bool;
  s3_ForcePathStyle : bool
}.

Record redigo_Config := {
  rg_MaxActive : Z;
  rg_MaxIdle : Z;
  rg_Timeout : Z
}.

Record ConnectOptions := {
  Retry : Z;
  opt_MaxOpenConnections : Z;
  opt_MaxIdleConnections : Z
}.

(** ** Connected handles and the registry *)

(** [objectstorage.New(provider)] wraps the connected provider. *)
Record Storage := { st_provider : ref }.

(** Modelled from the spec: [sqldb.Wrap] is not part of [kothak.go]; a
    [DatabaseHandle] owns the leader pool and the follower pool it was
    wrapped from.  Whether [Wrap] fails is left to the environment. *)
Record DB := { leader : ref; follower : ref }.

Definition wrapped (_ : unit) (leaderDB followerDB : ref) : DB :=
  {| leader := leaderDB; follower := followerDB |}.

Record Kothak := {
  objStorages : gmap string Storage;
  dbs : gmap string DB;
  rds : gmap string ref
}.

Definition empty_Kothak : Kothak :=
  {| objStorages := ∅; dbs := ∅; rds := ∅ |}.

(** ** External calls

    Everything [New] calls outside [kothak.go].  [ret c] is the type of the
    value the call returns next to its [error]. *)
Inductive call : Type :=
| DBConfig_SetDefault (c : DBConfig)
| ConnConfig_SetDefault (c : ConnConfig) (d : DBConfig)
| local_New (path : string) (DeleteOnClose : bool)
| gcs_CredentialsFromFile (jsonKey : string)
| gcs_NewConfig (creds : ref)
| gcs_New (c : gcs_Config)
| s3_CredentialsFromClient (id secret token : string)
| s3_NewConfig (creds : ref)
| s3_New (c : s3_Config)
| redigo_New (address : string) (c : redigo_Config)
| sqldb_Connect (driver dsn : string) (o : ConnectOptions)
| sqldb_Wrap (leaderDB followerDB : ref).

Definition ret (c : call) : Type :=
  match c with
  | DBConfig_SetDefault _ => DBConfig
  | ConnConfig_SetDefault _ _ => ConnConfig
  | sqldb_Wrap _ _ => unit
  | _ => ref
  end.

(** ** Bring-up units

    A goroutine of [New] performs external calls and ends with exactly one
    write to the state it shares with its siblings. *)
Inductive commit : Type :=
| AppendErr (e : error)                      (* errs = append(errs, err) *)
| SetObjStorage (name : string) (s : Storage) (* kothak.objStorages[name] = _ *)
| SetRedis (name : string) (r : ref)          (* kothak.rds[name] = _ *)
| SetDB (name : string) (d : DB).             (* kothak.dbs[name] = _ *)

Inductive prog : Type :=
| Call (c : call) (k : result (ret c) -> prog)
| Leaf (a : commit).

(** [v, err := f(...); if err != nil { errs = append(errs, err); return }] *)
Definition try_call (c : call) (k : ret c -> prog) : prog :=
  Call c (fun r => match r with
                   | Ok v => k v
                   | Err e => Leaf (AppendErr e)
                   end).

Notation "'call!' x <- c 'in' p" := (try_call c (fun x => p))
  (at level 10, x name, c at level 99, p at level 200,
   format "'[v' 'call!'  x  <-  c  'in'  '/' p ']'").

Section Kothak.

(** [strings.ToLower]. *)
Variable ToLower : string -> string.

Definition objStorage_unit (config : ObjectStorageConfig) : prog :=
  let p := ToLower (Provider config) in
  if decide (p = StorageLocal) then
    call! provider <- local_New ("./" +:+ Bucket config) false in
    Leaf (SetObjStorage (os_Name config) {| st_provider := provider |})
  else if decide (p = StorageGCS) then
    call! gcsCreds <- gcs_CredentialsFromFile (JSONKey (GCS config)) in
    call! gcsConfig <- gcs_NewConfig gcsCreds in
    call! provider <- gcs_New {| gcs_base := gcsConfig;
                           gcs_Bucket := Bucket config;
                           gcs_BucketProto := BucketProto config;
                           gcs_BucketURL := BucketURL config |} in
    Leaf (SetObjStorage (os_Name config) {| st_provider := provider |})
  else if decide (p = StorageS3 ∨ p = StorageDO ∨ p = StorageMinio) then
    call! s3Creds <- s3_CredentialsFromClient (ClientID (S3 config))
                 (ClientSecret (S3 config)) "" in
    call! s3Config <- s3_NewConfig s3Creds in
    call! provider <- s3_New {| s3_base := s3Config;
                          s3_Bucket := Bucket config;
                          s3_BucketProto := BucketProto config;
                          s3_BucketURL := BucketURL config;
                          s3_Region := Region config;
                          s3_Endpoint := Endpoint config;
                          s3_DisableSSL := DisableSSL (S3 config);
                          s3_ForcePathStyle := ForcePathStyle (S3 config) |} in
    Leaf (SetObjStorage (os_Name config) {| st_provider := provider |})
  else
    Leaf (AppendErr "kothak: object storage provider not found").

Definition redis_unit (rc : RedisConfig) (redisconfig : RedisConnConfig) : prog :=
  let conf := {| rg_MaxActive := MaxActive rc;
                 rg_MaxIdle := MaxIdle rc;
                 rg_Timeout := Timeout rc |} in
  call! r <- redigo_New (Address redisconfig) conf in
  Leaf (SetRedis (rd_Name redisconfig) r).

Definition connect_options (c : ConnConfig) : ConnectOptions :=
  {| Retry := MaxRetry c;
     opt_MaxOpenConnections := MaxOpenConnections c;
     opt_MaxIdleConnections := MaxIdleConnections c |}.

Definition db_unit (dbc : DBConfig) (dbconfig : SQLDBConfig) : prog :=
  (* if dbconfig.Driver == "" { } *)
  let _ := if decide (Driver dbconfig = "") then tt else tt in
  call! leaderConf <- ConnConfig_SetDefault (LeaderConnConfig dbconfig) dbc in
  call! leaderDB <- sqldb_Connect (Driver dbconfig) (DSN leaderConf)
                (connect_options leaderConf) in
  if decide (DSN (ReplicaConnConfig dbconfig) ≠ "") then
    call! followerDB <- sqldb_Connect (Driver dbconfig)
                    (DSN (ReplicaConnConfig dbconfig))
                    (connect_options (ReplicaConnConfig dbconfig)) in
    call! db <- sqldb_Wrap leaderDB followerDB in
    Leaf (SetDB (db_Name dbconfig) (wrapped db leaderDB followerDB))
  else
    (* by default, set replica to leader *)
    call! db <- sqldb_Wrap leaderDB leaderDB in
    Leaf (SetDB (db_Name dbconfig) (wrapped db leaderDB leaderDB)).

(** ** The environment

    The external packages are an arbitrary stateful environment: a call is
    answered from the current [World] and changes it. *)
Variable World : Type.
Variable respond : forall c : call, World -> result (ret c) * World.

(** What a call returned, as recorded in the history of a run. *)
Inductive retval : Type :=
| RErr (e : error)
| RRef (r : ref)
| RDBConfig (c : DBConfig)
| RConnConfig (c : ConnConfig)
| RUnit.

Definition to_retval (c : call) : result (ret c) -> retval :=
  match c return result (ret c) -> retval with
  | DBConfig_SetDefault _ =>
      fun r => match r with Ok v => RDBConfig v | Err e => RErr e end
  | ConnConfig_SetDefault _ _ =>
      fun r => match r with Ok v => RConnConfig v | Err e => RErr e end
  | sqldb_Wrap _ _ =>
      fun r => match r with Ok _ => RUnit | Err e => RErr e end
  | _ => fun r => match r with Ok v => RRef v | Err e => RErr e end
  end.

Inductive event : Type :=
| EvCall (c : call) (v : retval)
| EvCommit (a : commit).

(** [None] is the goroutine that runs [New] itself, [Some i] the [i]-th
    goroutine it spawned. *)
Definition history := list (option nat * event).

(** ** Shared state and interleaving *)

Inductive thread : Type :=
| Running (p : prog)
| Done (a : commit).

Record state := {
  world : World;
  log : history;
  errs : list error;
  kothak : Kothak;
  pool : list thread
}.

Definition do_commit (a : commit) (es : list error) (k : Kothak)
  : list error * Kothak :=
  match a with
  | AppendErr e => (es ++ [e], k)
  | SetObjStorage name s =>
      (es, {| objStorages := <[name := s]> (objStorages k);
              dbs := dbs k; rds := rds k |})
  | SetRedis name r =>
      (es, {| objStorages := objStorages k;
              dbs := dbs k; rds := <[name := r]> (rds k) |})
  | SetDB name d =>
      (es, {| objStorages := objStorages k;
              dbs := <[name := d]> (dbs k); rds := rds k |})
  end.

(** One step of goroutine [i]: its next external call, or its final write.
    A goroutine that has returned (or an index that was never spawned) does
    nothing. *)
Definition step (i : nat) (st : state) : state :=
  match pool st !! i with
  | Some (Running (Call c k)) =>
      let '(r, w) := respond c (world st) in
      {| world := w;
         log := log st ++ [(Some i, EvCall c (to_retval c r))];
         errs := errs st;
         kothak := kothak st;
         pool := <[i := Running (k r)]> (pool st) |}
  | Some (Running (Leaf a)) =>
      let '(es, k) := do_commit a (errs st) (kothak st) in
      {| world := world st;
         log := log st ++ [(Some i, EvCommit a)];
         errs := es;
         kothak := k;
         pool := <[i := Done a]> (pool st) |}
  | _ => st
  end.

Definition run (sched : list nat) (st : state) : state :=
  foldl (fun s i => step i s) st sched.

Definition is_done (t : thread) : bool :=
  match t with Done _ => true | Running _ => false end.

(** ** New *)

(** The iterations of the three loops, in order: object storages, then
    caches, then databases (of the defaulted [DBConfig]). *)
Inductive resource : Type :=
| RObjStorage (config : ObjectStorageConfig)
| RRedis (redisconfig : RedisConnConfig)
| RSQLDB (dbconfig : SQLDBConfig).

Definition resources (kothakConfig : Config) (dbc : DBConfig)
  : list resource :=
  (RObjStorage <$> cfg_ObjectStorageConfig kothakConfig)
  ++ (RRedis <$> Rds (cfg_RedisConfig kothakConfig))
  ++ (RSQLDB <$> SQLDBs dbc).

(** The goroutine each iteration spawns. *)
Definition unit_of (kothakConfig : Config) (dbc : DBConfig) (r : resource)
  : prog :=
  match r with
  | RObjStorage config => objStorage_unit config
  | RRedis redisconfig => redis_unit (cfg_RedisConfig kothakConfig) redisconfig
  | RSQLDB dbconfig => db_unit dbc dbconfig
  end.

Definition units (kothakConfig : Config) (dbc : DBConfig) : list prog :=
  unit_of kothakConfig dbc <$> resources kothakConfig dbc.

(** The shared state once the loops have spawned every goroutine. *)
Definition spawned (kothakConfig : Config) (dbc : DBConfig) (w : World)
  : state :=
  {| world := w;
     log := [(None, EvCall (DBConfig_SetDefault (cfg_DBConfig kothakConfig))
                      (RDBConfig dbc))];
     errs := []; kothak := empty_Kothak;
     pool := Running <$> units kothakConfig dbc |}.

Inductive New_result : Type :=
| Returns (k : option Kothak) (err : option error)
| Waiting.  (* group.Wait() still blocks: some goroutine has not returned *)

(** [New] under the schedule [sched] of its goroutines.  The state at the
    end of the schedule is returned next to the result. *)
Definition New (kothakConfig : Config) (sched : list nat) (w : World)
  : New_result * state :=
  let c := DBConfig_SetDefault (cfg_DBConfig kothakConfig) in
  match respond c w with
  | (Err err, w1) =>
      (Returns None (Some err),
       {| world := w1; log := [(None, EvCall c (RErr err))];
          errs := []; kothak := empty_Kothak; pool := [] |})
  | (Ok dbc, w1) =>
      let st := run sched (spawned kothakConfig dbc w1) in
      (if forallb is_done (pool st)
       then Returns (Some (kothak st)) (head (errs st))
       else Waiting,
       st)
  end.

(** ** Registry accessors

    The accessors are methods on [*Kothak]; they are given the registry and
    hand it back, so that what they do to it can be stated. *)

Definition GetSQLDB (k : Kothak) (dbname : string)
  : (option DB * option error) * Kothak :=
  match dbs k !! dbname with
  | None =>
      let err := "kothak: sql database with name " +:+ dbname
                 +:+ " does not exists" in
      ((None, Some err), k)
  | Some i => ((Some i, None), k)
  end.

Definition GetRedis (k : Kothak) (redisname : string)
  : (option ref * option error) * Kothak :=
  match rds k !! redisname with
  | None =>
      let err := "kothak: redis with name " +:+ redisname
                 +:+ " does not exists" in
      ((None, Some err), k)
  | Some i => ((Some i, None), k)
  end.

Definition GetObjectStorage (k : Kothak) (objStorageName : string)
  : (option Storage * option error) * Kothak :=
  match objStorages k !! objStorageName with
  | None =>
      let err := "kothak: object storage with name " +:+ objStorageName
                 +:+ " does not exists" in
      ((None, Some err), k)
  | Some i => ((Some i, None), k)
  end.

(** Modelled from the spec: [logger.Fatalf] belongs to the logger interface,
    which is not part of [kothak.go]; it terminates the process after
    logging its message, so the [return i] after it is never reached. *)
Inductive must (A : Type) : Type :=
| Value (a : A)
| Fatalf (msg : string).
Arguments Value {A} a.
Arguments Fatalf {A} msg.

Definition MustGetSQLDB (k : Kothak) (dbname : string) : must DB * Kothak :=
  match dbs k !! dbname with
  | None =>
      (Fatalf ("kothak: sql database with name " +:+ dbname
               +:+ " does not exists"), k)
  | Some i => (Value i, k)
  end.

Definition MustGetRedis (k : Kothak) (redisname : string)
  : must ref * Kothak :=
  match rds k !! redisname with
  | None =>
      (Fatalf ("Kothak: redis with name " +:+ redisname
               +:+ " does not exists"), k)
  | Some i => (Value i, k)
  end.

Definition MustGetObjectStorage (k : Kothak) (objStorageName : string)
  : must Storage * Kothak :=
  match objStorages k !! objStorageName with
  | None =>
      (Fatalf ("kothak: object storage with name " +:+ objStorageName
               +:+ " does not exists"), k)
  | Some i => (Value i, k)
  end.

(** ** CloseAll *)

Inductive handle : Type :=
| HStorage (s : Storage)
| HDB (d : DB)
| HRedis (r : ref).

(** The [Close] method of a handle: it may fail and changes the world. *)
Variable close : handle -> World -> option error * World.

(** [h.Close()] with the returned error dropped; the invocation is
    recorded. *)
Definition close_one (acc : World * list handle) (h : handle)
  : World * list handle :=
  let '(_, w) := close h (acc.1) in (w, acc.2 ++ [h]).

(** A [for _, v := range m] loop visits every entry of the map once, in an
    order Go leaves unspecified: the order of each of the three loops is an
    input. *)
Record iteration := {
  it_objStorages : list (string * Storage);
  it_dbs : list (string * DB);
  it_rds : list (string * ref)
}.

Definition ranges (k : Kothak) (it : iteration) : Prop :=
  it_objStorages it ≡ₚ map_to_list (objStorages k)
  ∧ it_dbs it ≡ₚ map_to_list (dbs k)
  ∧ it_rds it ≡ₚ map_to_list (rds k).

Definition CloseAll (k : Kothak) (it : iteration) (w : World)
  : option error * Kothak * (World * list handle) :=
  let acc := foldl close_one (w, []) (HStorage <$> (it_objStorages it).*2) in
  let acc := foldl close_one acc (HDB <$> (it_dbs it).*2) in
  let acc := foldl close_one acc (HRedis <$> (it_rds it).*2) in
  (None, k, acc).

(** ** Vocabulary of the statements *)

Inductive family : Type := ObjectStorage | SQLDB | Redis.

#[global] Instance family_eq_dec : EqDecision family.
Proof. solve_decision. Defined.

(** The slot of the registry a final write fills, and with which handle. *)
Definition installs (a : commit) : option (family * string * handle) :=
  match a with
  | AppendErr _ => None
  | SetObjStorage name s => Some (ObjectStorage, name, HStorage s)
  | SetRedis name r => Some (Redis, name, HRedis r)
  | SetDB name d => Some (SQLDB, name, HDB d)
  end.

Definition registry_lookup (k : Kothak) (f : family) (name : string)
  : option handle :=
  match f with
  | ObjectStorage => HStorage <$> objStorages k !! name
  | SQLDB => HDB <$> dbs k !! name
  | Redis => HRedis <$> rds k !! name
  end.

(** The accessors of the three families under one name. *)
Definition get (k : Kothak) (f : family) (name : string)
  : (option handle * option error) * Kothak :=
  match f with
  | ObjectStorage =>
      let '((i, err), k') := GetObjectStorage k name in
      ((HStorage <$> i, err), k')
  | SQLDB =>
      let '((i, err), k') := GetSQLDB k name in ((HDB <$> i, err), k')
  | Redis =>
      let '((i, err), k') := GetRedis k name in ((HRedis <$> i, err), k')
  end.

Definition mustGet (k : Kothak) (f : family) (name : string)
  : must handle * Kothak :=
  let lift {A} (c : A -> handle) (m : must A) : must handle :=
    match m with Value i => Value (c i) | Fatalf msg => Fatalf msg end in
  match f with
  | ObjectStorage =>
      let '(m, k') := MustGetObjectStorage k name in (lift HStorage m, k')
  | SQLDB => let '(m, k') := MustGetSQLDB k name in (lift HDB m, k')
  | Redis => let '(m, k') := MustGetRedis k name in (lift HRedis m, k')
  end.

(** Every handle held by the registry, family by family. *)
Definition registered_handles (k : Kothak) : list handle :=
  (HStorage <$> (map_to_list (objStorages k)).*2)
  ++ (HDB <$> (map_to_list (dbs k)).*2)
  ++ (HRedis <$> (map_to_list (rds k)).*2).

(** Family and configured name of a resource. *)
Definition slot_of (r : resource) : family * string :=
  match r with
  | RObjStorage config => (ObjectStorage, os_Name config)
  | RRedis redisconfig => (Redis, rd_Name redisconfig)
  | RSQLDB dbconfig => (SQLDB, db_Name dbconfig)
  end.

(** The provider identifiers the switch of [New] has a case for. *)
Definition recognized (provider : string) : Prop :=
  ToLower provider ∈ [StorageLocal; StorageGCS; StorageS3; StorageDO;
                      StorageMinio].

#[global] Instance recognized_dec provider : Decision (recognized provider).
Proof. unfold recognized. apply _. Defined.

(** A resource whose goroutine does not end in the [default] case. *)
Definition connectable (r : resource) : Prop :=
  match r with
  | RObjStorage config => recognized (Provider config)
  | _ => True
  end.

Definition provider_not_found : error :=
  "kothak: object storage provider not found".

Definition with_Provider (provider : string) (c : ObjectStorageConfig)
  : ObjectStorageConfig :=
  {| os_Name := os_Name c; Provider := provider; Bucket := Bucket c;
     BucketProto := BucketProto c; BucketURL := BucketURL c;
     Region := Region c; Endpoint := Endpoint c; GCS := GCS c; S3 := S3 c |}.

(** No call of the program satisfies [P]. *)
Fixpoint never_calls (P : call -> Prop) (p : prog) : Prop :=
  match p with
  | Leaf _ => True
  | Call c k => ~ P c /\ forall r, never_calls P (k r)
  end.

Definition is_DBConfig_SetDefault (c : call) : Prop :=
  match c with DBConfig_SetDefault _ => True | _ => False end.

(** Index of the goroutine of the [idx]-th database entry. *)
Definition db_index (kothakConfig : Config) (idx : nat) : nat :=
  length (cfg_ObjectStorageConfig kothakConfig)
  + length (Rds (cfg_RedisConfig kothakConfig)) + idx.

(** The events of goroutine [who] in a history. *)
Definition sublog (who : option nat) (h : history) : list event :=
  omap (fun e : option nat * event =>
          if decide (e.1 = who) then Some e.2 else None) h.

(** [replays es p t]: performing the events [es] from the start of program
    [p] is possible and leaves the goroutine in state [t]. *)
Fixpoint replays (es : list event) (p : prog) (t : thread) : Prop :=
  match es with
  | [] => t = Running p
  | e :: es' =>
      match p with
      | Call c k => exists r, e = EvCall c (to_retval c r) /\ replays es' (k r) t
      | Leaf a => e = EvCommit a /\ es' = [] /\ t = Done a
      end
  end.

(** The failures appended to [errs], in the order of the history. *)
Definition errs_of (h : history) : list error :=
  omap (fun e : option nat * event =>
          match e.2 with
          | EvCommit (AppendErr err) => Some err
          | _ => None
          end) h.

(** The failures of the goroutines that have returned. *)
Definition failures (ts : list thread) : list error :=
  omap (fun t => match t with
                 | Done (AppendErr err) => Some err
                 | _ => None
                 end) ts.

Definition is_connect (e : event) : bool :=
  match e with
  | EvCall (sqldb_Connect _ _ _) _ => true
  | _ => false
  end.

Definition is_failure (e : event) : bool :=
  match e with
  | EvCall _ (RErr _) => true
  | _ => false
  end.

(** Every call of a program returns within [n] calls. *)
Fixpoint bounded (n : nat) (p : prog) {struct p} : Prop :=
  match p with
  | Leaf _ => True
  | Call c k =>
      match n with
      | 0 => False
      | S n' => forall r, bounded n' (k r)
      end
  end.

Definition all_bounded (n : nat) (st : state) : Prop :=
  forall i q, pool st !! i = Some (Running q) -> bounded n q.

(** The final writes a program can end with, and those it can end with
    when none of its calls fails. *)
Fixpoint leaf_of (p : prog) (a : commit) : Prop :=
  match p with
  | Leaf b => b = a
  | Call c k => exists r, leaf_of (k r) a
  end.

Fixpoint ok_leaf_of (p : prog) (a : commit) : Prop :=
  match p with
  | Leaf b => b = a
  | Call c k => exists v, ok_leaf_of (k (Ok v)) a
  end.

(** A schedule that lets each of [n] goroutines take [m] steps. *)
Definition finishing (m n : nat) : list nat :=
  concat ((fun i => replicate m i) <$> seq 0 n).

(** *** Shared locations and races

    The goroutines share the slice [errs] and the three maps of the
    registry, and take no lock: two goroutines race when both are about to
    write the same location. *)
Inductive location : Type := LocErrs | LocObjStorages | LocDbs | LocRds.

#[global] Instance location_eq_dec : EqDecision location.
Proof. solve_decision. Defined.

Definition writes (a : commit) : location :=
  match a with
  | AppendErr _ => LocErrs
  | SetObjStorage _ _ => LocObjStorages
  | SetRedis _ _ => LocRds
  | SetDB _ _ => LocDbs
  end.

Definition about_to_write (st : state) (i : nat) (l : location) : Prop :=
  exists a, pool st !! i = Some (Running (Leaf a)) /\ writes a = l.

Definition race (st : state) : Prop :=
  exists i j l, i <> j /\ about_to_write st i l /\ about_to_write st j l.

(** *** Invariant of a run

    [consistent e0 ps st]: [st] is a state of the goroutines spawned with
    the programs [ps], after the spawning goroutine made the call [e0]. *)
Record consistent (e0 : call * retval) (ps : list prog) (st : state) : Prop := {
  cons_length : length (pool st) = length ps;
  cons_replays : forall i p, ps !! i = Some p ->
    exists t, pool st !! i = Some t
              /\ replays (sublog (Some i) (log st)) p t;
  cons_main : exists rest, log st = (None, EvCall e0.1 e0.2) :: rest
                           /\ Forall (fun x => exists i, x.1 = Some i
                                                  /\ i < length ps) rest;
  cons_errs : errs st = errs_of (log st);
  cons_failures : errs st ≡ₚ failures (pool st);
  cons_registered : forall f name hd,
    registry_lookup (kothak st) f name = Some hd ->
    exists j a, pool st !! j = Some (Done a)
                /\ installs a = Some (f, name, hd);
  cons_bound : forall j a f name hd,
    pool st !! j = Some (Done a) -> installs a = Some (f, name, hd) ->
    is_Some (registry_lookup (kothak st) f name)
}.

(** *** Further vocabulary *)

(** The slots filled, and the handles put there, by the goroutines that
    have returned. *)
Definition installed (ts : list thread) : list (family * string * handle) :=
  omap (fun t => match t with
                 | Done a => installs a
                 | Running _ => None
                 end) ts.

(** The handle the latest write to a slot of the registry put there. *)
Definition last_install (f : family) (name : string) (h : history)
  : option handle :=
  foldl (fun acc (x : option nat * event) =>
           match x.2 with
           | EvCommit a =>
               match installs a with
               | Some (f', name', hd) =>
                   if decide (f' = f /\ name' = name) then Some hd else acc
               | None => acc
               end
           | EvCall _ _ => acc
           end) None h.

(** The final write of a program when every call [c] it makes is answered
    by [answer c]. *)
Fixpoint final (answer : forall c, result (ret c)) (p : prog) : commit :=
  match p with
  | Leaf a => a
  | Call c k => final answer (k (answer c))
  end.

(** [follows answer p t]: [t] is a state of program [p] in which every
    call so far was answered by [answer]. *)
Fixpoint follows (answer : forall c, result (ret c)) (p : prog) (t : thread)
  : Prop :=
  t = Running p
  \/ match p with
     | Leaf a => t = Done a
     | Call c k => follows answer (k (answer c)) t
     end.

(** Every call of the program satisfies [P]. *)
Fixpoint only_calls (P : call -> Prop) (p : prog) : Prop :=
  match p with
  | Leaf _ => True
  | Call c k => P c /\ forall r, only_calls P (k r)
  end.

(** The number of handles the registry holds. *)
Definition registry_size (k : Kothak) : nat :=
  size (objStorages k) + size (dbs k) + size (rds k).

(** The calls a goroutine of [New] makes for a configuration: their
    arguments are read from an entry of the configuration. *)
Definition configured_call (kothakConfig : Config) (dbc : DBConfig) (c : call)
  : Prop :=
  let objs := cfg_ObjectStorageConfig kothakConfig in
  let rc := cfg_RedisConfig kothakConfig in
  match c with
  | DBConfig_SetDefault _ => False
  | ConnConfig_SetDefault cc d =>
      d = dbc
      /\ exists dbconfig, dbconfig ∈ SQLDBs dbc
                          /\ cc = LeaderConnConfig dbconfig
  | local_New path DeleteOnClose =>
      DeleteOnClose = false
      /\ exists config, config ∈ objs /\ path = "./" +:+ Bucket config
  | gcs_CredentialsFromFile jsonKey =>
      exists config, config ∈ objs /\ jsonKey = JSONKey (GCS config)
  | gcs_New c =>
      exists config, config ∈ objs
        /\ gcs_Bucket c = Bucket config
        /\ gcs_BucketProto c = BucketProto config
        /\ gcs_BucketURL c = BucketURL config
  | s3_CredentialsFromClient id secret token =>
      token = ""
      /\ exists config, config ∈ objs /\ id = ClientID (S3 config)
                        /\ secret = ClientSecret (S3 config)
  | s3_New c =>
      exists config, config ∈ objs
        /\ s3_Bucket c = Bucket config
        /\ s3_BucketProto c = BucketProto config
        /\ s3_BucketURL c = BucketURL config
        /\ s3_Region c = Region config
        /\ s3_Endpoint c = Endpoint config
        /\ s3_DisableSSL c = DisableSSL (S3 config)
        /\ s3_ForcePathStyle c = ForcePathStyle (S3 config)
  | redigo_New address conf =>
      conf = {| rg_MaxActive := MaxActive rc; rg_MaxIdle := MaxIdle rc;
                rg_Timeout := Timeout rc |}
      /\ exists redisconfig, redisconfig ∈ Rds rc
                             /\ address = Address redisconfig
  | sqldb_Connect driver dsn o =>
      exists dbconfig, dbconfig ∈ SQLDBs dbc /\ driver = Driver dbconfig
  | gcs_NewConfig _ | s3_NewConfig _ | sqldb_Wrap _ _ => True
  end.

End Kothak.

Arguments Value {A} a.
Arguments Fatalf {A} msg.
Arguments consistent {World} e0 ps st.
Arguments cons_length {World e0 ps st} _.
Arguments cons_replays {World e0 ps st} _.
Arguments cons_main {World e0 ps st} _.
Arguments cons_errs {World e0 ps st} _.
Arguments cons_failures {World e0 ps st} _.
Arguments cons_registered {World e0 ps st} _.
Arguments cons_bound {World e0 ps st} _.
Arguments world {World} _.
Arguments log {World} _.
Arguments errs {World} _.
Arguments kothak {World} _.
Arguments pool {World} _.
Arguments step {World} respond i st.
Arguments run {World} respond sched st.
Arguments New ToLower {World} respond kothakConfig sched w.
Arguments spawned ToLower {World} kothakConfig dbc w.
Arguments all_bounded {World} n st.
Arguments CloseAll {World} close k it w.
Arguments close_one {World} close acc h.
Arguments about_to_write {World} st i l.
Arguments race {World} st.
Arguments last_install f name h : clear implicits.

(** ** Concrete environments used to exercise the definitions *)

Definition lower_ascii (a : Ascii.ascii) : Ascii.ascii :=
  let n := Ascii.nat_of_ascii a in
  if (65 <=? n)%nat && (n <=? 90)%nat then Ascii.ascii_of_nat (n + 32) else a.

(** [strings.ToLower] on ASCII identifiers. *)
Fixpoint ascii_ToLower (s : string) : string :=
  match s with
  | EmptyString => EmptyString
  | String a s' => String (lower_ascii a) (ascii_ToLower s')
  end.

(** An environment in which every call succeeds; the world counts the
    references handed out. *)
Definition respond_ok (c : call) (w : nat) : result (ret c) * nat :=
  match c return result (ret c) * nat with
  | DBConfig_SetDefault d => (Ok d, w)
  | ConnConfig_SetDefault cc _ => (Ok cc, w)
  | sqldb_Wrap _ _ => (Ok tt, w)
  | _ => (Ok w, S w)
  end.

(** An environment in which the calls selected by [bad] fail. *)
Definition respond_failing (bad : call -> option error) (c : call) (w : nat)
  : result (ret c) * nat :=
  match bad c with
  | Some e => (Err e, w)
  | None => respond_ok c w
  end.

Definition close_ok (h : handle) (w : nat) : option error * nat := (None, w).

Definition close_failing (h : handle) (w : nat) : option error * nat :=
  (Some "close failed", w).

(** A sample configuration: three object stores (one with an unknown
    provider), one cache, two databases (the first without replica, the
    second with an empty driver and a replica). *)
Definition sample_objStorage (name provider : string) : ObjectStorageConfig :=
  {| os_Name := name; Provider := provider; Bucket := "bucket";
     BucketProto := "https"; BucketURL := "example.org";
     Region := "eu"; Endpoint := "endpoint";
     GCS := {| JSONKey := "key.json" |};
     S3 := {| ClientID := "id"; ClientSecret := "secret";
              DisableSSL := false; ForcePathStyle := true |} |}.

Definition sample_conn (dsn : string) : ConnConfig :=
  {| DSN := dsn; MaxRetry := 3; MaxOpenConnections := 10;
     MaxIdleConnections := 2 |}.

Definition sample_dbs : list SQLDBConfig :=
  [ {| db_Name := "main"; Driver := "postgres";
       LeaderConnConfig := sample_conn "leader-main";
       ReplicaConnConfig := sample_conn "" |};
    {| db_Name := "report"; Driver := "";
       LeaderConnConfig := sample_conn "leader-report";
       ReplicaConnConfig := sample_conn "replica-report" |} ].

Definition sample_config (objs : list ObjectStorageConfig) : Config :=
  {| cfg_DBConfig := {| DefaultMaxRetry := 1;
                        DefaultMaxOpenConnections := 5;
                        DefaultMaxIdleConnections := 1;
                        SQLDBs := sample_dbs |};
     cfg_RedisConfig := {| MaxActive := 8; MaxIdle := 4; Timeout := 30;
                           Rds := [ {| rd_Name := "session";
                                       Address := "localhost:6379" |} ] |};
     cfg_ObjectStorageConfig := objs |}.

Definition sample_objs : list ObjectStorageConfig :=
  [ sample_objStorage "assets" "LOCAL";
    sample_objStorage "backup" "ftp";
    sample_objStorage "media" "MinIO" ].

(** Failures injected into the environment. *)
Definition fail_DBConfig_default (c : call) : option error :=
  match c with
  | DBConfig_SetDefault _ => Some "database: defaults cannot be resolved"
  | _ => None
  end.

Definition fail_leader_default (dsn : string) (c : call) : option error :=
  match c with
  | ConnConfig_SetDefault cc _ =>
      if decide (DSN cc = dsn) then Some "database: bad leader defaults"
      else None
  | _ => None
  end.

Definition fail_connect (dsn : string) (c : call) : option error :=
  match c with
  | sqldb_Connect _ dsn' _ =>
      if decide (dsn' = dsn) then Some "sqldb: connection refused" else None
  | _ => None
  end.

(** A registry with three object stores, two databases and one cache. *)
Definition sample_registry : Kothak :=
  {| objStorages := <["assets" := {| st_provider := 0 |}]>
                      (<["backup" := {| st_provider := 1 |}]>
                         (<["media" := {| st_provider := 2 |}]> ∅));
     dbs := <["main" := {| leader := 3; follower := 3 |}]>
              (<["report" := {| leader := 4; follower := 5 |}]> ∅);
     rds := <["session" := 6]> ∅ |}.

Definition forward_iteration (k : Kothak) : iteration :=
  {| it_objStorages := map_to_list (objStorages k);
     it_dbs := map_to_list (dbs k);
     it_rds := map_to_list (rds k) |}.

Definition backward_iteration (k : Kothak) : iteration :=
  {| it_objStorages := reverse (map_to_list (objStorages k));
     it_dbs := reverse (map_to_list (dbs k));
     it_rds := reverse (map_to_list (rds k)) |}.

(** Fifty resources: twenty object stores, fifteen caches, fifteen
    databases. *)
Definition stress_config : Config :=
  {| cfg_DBConfig :=
       {| DefaultMaxRetry := 1; DefaultMaxOpenConnections := 5;
          DefaultMaxIdleConnections := 1;
          SQLDBs := (fun i => {| db_Name := "db-" +:+ pretty i;
                                 Driver := "postgres";
                                 LeaderConnConfig :=
                                   sample_conn ("leader-" +:+ pretty i);
                                 ReplicaConnConfig := sample_conn "" |})
                    <$> seq 0 15 |};
     cfg_RedisConfig :=
       {| MaxActive := 8; MaxIdle := 4; Timeout := 30;
          Rds := (fun i => {| rd_Name := "cache-" +:+ pretty i;
                              Address := "localhost:6379" |})
                 <$> seq 0 15 |};
     cfg_ObjectStorageConfig :=
       (fun i => sample_objStorage ("store-" +:+ pretty i) "s3")
       <$> seq 0 20 |}.

(** Runs of [New] on the sample configuration: one in which nothing but
    the unknown provider fails, one in which the leader of ["report"]
    refuses the connection as well, one in which the defaulting of that
    leader fails. *)
Definition sample_run : New_result * state nat :=
  New ascii_ToLower respond_ok (sample_config sample_objs) (finishing 5 6) 0.

Definition refused_run : New_result * state nat :=
  New ascii_ToLower (respond_failing (fail_connect "leader-report"))
    (sample_config sample_objs) (finishing 5 6) 0.

Definition leader_default_run : New_result * state nat :=
  New ascii_ToLower (respond_failing (fail_leader_default "leader-report"))
    (sample_config [sample_objStorage "assets" "LOCAL"]) (finishing 5 4) 0.

(** An environment that answers a call the same way whenever it is made:
    a reference is derived from the arguments, and the leader of
    ["report"] refuses the connection. *)
Definition answer_fixed (c : call) : result (ret c) :=
  match c return result (ret c) with
  | DBConfig_SetDefault d => Ok d
  | ConnConfig_SetDefault cc _ => Ok cc
  | sqldb_Wrap _ _ => Ok tt
  | sqldb_Connect _ dsn _ =>
      if decide (dsn = "leader-report") then Err "sqldb: connection refused"
      else Ok (String.length dsn)
  | local_New path _ => Ok (String.length path)
  | redigo_New address _ => Ok (String.length address)
  | _ => Ok 0
  end.

Definition respond_fixed (c : call) (w : unit) : result (ret c) * unit :=
  (answer_fixed c, w).

(** Two object stores configured under the same name. *)
Definition duplicate_objs : list ObjectStorageConfig :=
  [ sample_objStorage "assets" "local"; sample_objStorage "assets" "s3" ].

(** A configuration without any resource. *)
Definition empty_config : Config :=
  {| cfg_DBConfig := {| DefaultMaxRetry := 1; DefaultMaxOpenConnections := 5;
                        DefaultMaxIdleConnections := 1; SQLDBs := [] |};
     cfg_RedisConfig := {| MaxActive := 8; MaxIdle := 4; Timeout := 30;
                           Rds := [] |};
     cfg_ObjectStorageConfig := [] |}.

(** Further runs: with the duplicated name, in the deterministic
    environment, with the refused leader connection after a given start,
    and one in which nothing fails. *)
Definition duplicate_run (sched : list nat) : New_result * state nat :=
  New ascii_ToLower respond_ok (sample_config duplicate_objs) sched 0.

Definition fixed_run (sched : list nat) : New_result * state unit :=
  New ascii_ToLower respond_fixed (sample_config sample_objs) sched tt.

Definition refused_after (sched : list nat) : New_result * state nat :=
  New ascii_ToLower (respond_failing (fail_connect "leader-report"))
    (sample_config sample_objs) sched 0.

Definition clean_objs : list ObjectStorageConfig :=
  [ sample_objStorage "assets" "LOCAL"; sample_objStorage "media" "MinIO" ].

Definition clean_run : New_result * state nat :=
  New ascii_ToLower respond_ok (sample_config clean_objs) (finishing 5 5) 0.

(** * Properties *)

Section KothakFacts.

Variable ToLower : string -> string.
Variable World : Type.
Variable respond : forall c : call, World -> result (ret c) * World.
Variable close : handle -> World -> option error * World.

Implicit Types (st : state World) (p q : prog) (t : thread) (es : list event)
  (h : history) (a : commit) (i j : nat) (sched : list nat).

(** ** Histories *)

Lemma sublog_snoc who h (x : option nat * event) :
  sublog who (h ++ [x])
  = if decide (x.1 = who) then sublog who h ++ [x.2] else sublog who h.
Proof.
  unfold sublog. rewrite omap_app. simpl.
  destruct (decide (x.1 = who)); simpl; [done | by rewrite app_nil_r].
Qed.

Lemma errs_of_snoc h (x : option nat * event) :
  errs_of (h ++ [x])
  = match x.2 with
    | EvCommit (AppendErr err) => errs_of h ++ [err]
    | _ => errs_of h
    end.
Proof.
  unfold errs_of. rewrite omap_app. simpl.
  destruct (x.2) as [c v|[]]; simpl; by rewrite ?app_nil_r.
Qed.

Lemma replays_snoc_call es : forall p c k r,
  replays es p (Running (Call c k)) ->
  replays (es ++ [EvCall c (to_retval c r)]) p (Running (k r)).
Proof.
  induction es as [|e es IH]; intros p c k r H; simpl in *.
  - injection H as <-. by exists r.
  - destruct p as [c0 k0|a].
    + destruct H as (r0 & -> & H). exists r0. split; [done|]. by apply IH.
    + by destruct H as (_ & _ & ?).
Qed.

Lemma replays_snoc_leaf es : forall p a,
  replays es p (Running (Leaf a)) ->
  replays (es ++ [EvCommit a]) p (Done a).
Proof.
  induction es as [|e es IH]; intros p a H; simpl in *.
  - by injection H as <-.
  - destruct p as [c0 k0|a0].
    + destruct H as (r0 & -> & H). exists r0. split; [done|]. by apply IH.
    + by destruct H as (_ & _ & ?).
Qed.

(** A returned goroutine performs no further event. *)
Lemma replays_done_last es : forall p a,
  replays es p (Done a) -> exists es', es = es' ++ [EvCommit a].
Proof.
  induction es as [|e es IH]; intros p a H; simpl in *; [done|].
  destruct p as [c0 k0|a0].
  - destruct H as (r0 & -> & H). apply IH in H as [es' ->].
    by exists (EvCall c0 (to_retval c0 r0) :: es').
  - destruct H as (-> & -> & [= ->]). by exists [].
Qed.

Lemma replays_running_no_commit es : forall p q,
  replays es p (Running q) -> forall a, EvCommit a ∉ es.
Proof.
  induction es as [|e es IH]; intros p q H a Hin; simpl in *.
  - by apply elem_of_nil in Hin.
  - destruct p as [c0 k0|a0].
    + destruct H as (r0 & -> & H). apply elem_of_cons in Hin as [|Hin]; [done|].
      by eapply IH.
    + by destruct H as (_ & _ & ?).
Qed.

Lemma replays_commit es : forall p t a,
  replays es p t -> EvCommit a ∈ es -> t = Done a.
Proof.
  induction es as [|e es IH]; intros p t a H Hin; simpl in *.
  - by apply elem_of_nil in Hin.
  - destruct p as [c0 k0|a0].
    + destruct H as (r0 & -> & H). apply elem_of_cons in Hin as [|Hin]; [done|].
      by eapply IH.
    + destruct H as (-> & -> & ->). apply list_elem_of_singleton in Hin.
      by injection Hin as ->.
Qed.

(** ** Single steps *)

Lemma step_length i st : length (pool (step respond i st)) = length (pool st).
Proof.
  unfold step. destruct (pool st !! i) as [[[c k|a]|a]|] eqn:E; try done.
  - destruct (respond c (world st)). simpl. by rewrite length_insert.
  - destruct (do_commit a (errs st) (kothak st)). simpl. by rewrite length_insert.
Qed.

Lemma step_other i j st :
  i <> j -> pool (step respond i st) !! j = pool st !! j.
Proof.
  intros Hne. unfold step.
  destruct (pool st !! i) as [[[c k|a]|a]|] eqn:E; try done.
  - destruct (respond c (world st)). simpl. by rewrite list_lookup_insert_ne.
  - destruct (do_commit a (errs st) (kothak st)). simpl.
    by rewrite list_lookup_insert_ne.
Qed.

Lemma step_done i j st a :
  pool st !! j = Some (Done a) -> pool (step respond i st) !! j = Some (Done a).
Proof.
  intros H. destruct (decide (i = j)) as [->|Hne].
  - unfold step. by rewrite H.
  - by rewrite step_other.
Qed.

Lemma failures_insert_running (ts : list thread) i p q :
  ts !! i = Some (Running p) ->
  failures (<[i := Running q]> ts) = failures ts.
Proof.
  intros H. rewrite insert_take_drop by (by eapply lookup_lt_Some).
  set (l1 := take i ts). set (l2 := drop (S i) ts).
  assert (ts = l1 ++ Running p :: l2) as Hts
    by (symmetry; by apply take_drop_middle).
  rewrite Hts. unfold failures. by rewrite !omap_app.
Qed.

Lemma failures_insert_done (ts : list thread) i p a :
  ts !! i = Some (Running p) ->
  failures (<[i := Done a]> ts)
  ≡ₚ match a with
     | AppendErr err => failures ts ++ [err]
     | _ => failures ts
     end.
Proof.
  intros H. rewrite insert_take_drop by (by eapply lookup_lt_Some).
  set (l1 := take i ts). set (l2 := drop (S i) ts).
  assert (ts = l1 ++ Running p :: l2) as Hts
    by (symmetry; by apply take_drop_middle).
  rewrite Hts. unfold failures. rewrite !omap_app. simpl.
  destruct a; simpl; try done.
  rewrite <- app_assoc. apply Permutation_app_head.
  by rewrite <- Permutation_cons_append.
Qed.

Lemma lookup_do_commit a (l : list error) k f name :
  registry_lookup (do_commit a l k).2 f name
  = match installs a with
    | Some (f', name', hd) =>
        if decide (f' = f /\ name' = name) then Some hd
        else registry_lookup k f name
    | None => registry_lookup k f name
    end.
Proof.
  destruct a as [err|n s|n r|n d]; simpl; [done|..];
    (case_decide as Hd; [destruct Hd as [<- <-]; simpl; by rewrite lookup_insert_eq|]);
    destruct f; simpl; try done;
    rewrite lookup_insert_ne; [done|naive_solver|done|naive_solver|done|naive_solver].
Qed.

Lemma errs_do_commit a (l : list error) k :
  (do_commit a l k).1
  = match a with AppendErr err => l ++ [err] | _ => l end.
Proof. by destruct a. Qed.

(** ** The invariant holds along every schedule *)

Lemma consistent_init c0 v0 (ps : list prog) (w : World) :
  consistent (c0, v0) ps
    {| world := w; log := [(None, EvCall c0 v0)]; errs := [];
       kothak := empty_Kothak; pool := Running <$> ps |}.
Proof.
  split; simpl.
  - by rewrite length_fmap.
  - intros i p Hp. exists (Running p). rewrite list_lookup_fmap, Hp.
    split; [done|]. by unfold sublog.
  - exists []. by split.
  - done.
  - unfold failures. induction ps as [|p ps IH]; simpl; done.
  - intros f name hd. destruct f; simpl; by rewrite lookup_empty.
  - intros j a f name hd Hj. rewrite list_lookup_fmap in Hj.
    by destruct (ps !! j).
Qed.

Lemma consistent_step e0 (ps : list prog) i st :
  consistent e0 ps st -> consistent e0 ps (step respond i st).
Proof.
  intros [Hlen Hrep Hmain Herrs Hfail Hreg Hbound].
  assert (Hstep := eq_refl (step respond i st)). revert Hstep.
  unfold step at 1.
  destruct (pool st !! i) as [[[c k|a]|a]|] eqn:E;
    [| |intros <-; by split..].
  - (* an external call *)
    destruct (respond c (world st)) as [r w]. intros Hst.
    assert (i < length ps) as Hi by (rewrite <- Hlen; by eapply lookup_lt_Some).
    rewrite <- Hst. split; simpl.
    + by rewrite length_insert.
    + intros j p Hp. destruct (Hrep j p Hp) as (t & Ht & Hr).
      rewrite sublog_snoc. simpl. destruct (decide (i = j)) as [->|Hne].
      * rewrite decide_True by done. exists (Running (k r)).
        rewrite list_lookup_insert_eq by (by eapply lookup_lt_Some).
        split; [done|]. rewrite E in Ht. injection Ht as <-.
        by apply replays_snoc_call.
      * rewrite decide_False by congruence. exists t.
        by rewrite list_lookup_insert_ne.
    + destruct Hmain as (rest & -> & Hall). eexists. split; [done|].
      apply Forall_app. split; [done|]. apply Forall_singleton. by exists i.
    + by rewrite errs_of_snoc.
    + by erewrite failures_insert_running.
    + intros f name hd Hl. destruct (Hreg f name hd Hl) as (j & a & Hj & Ha).
      exists j, a. split; [|done]. rewrite list_lookup_insert_ne; [done|].
      intros ->. congruence.
    + intros j a f name hd Hj Ha. destruct (decide (i = j)) as [->|Hne].
      * rewrite list_lookup_insert_eq in Hj by (by eapply lookup_lt_Some). done.
      * rewrite list_lookup_insert_ne in Hj by done. by eapply Hbound.
  - (* the final write *)
    pose proof (lookup_do_commit a (errs st) (kothak st)) as Hlk.
    pose proof (errs_do_commit a (errs st) (kothak st)) as Hes.
    destruct (do_commit a (errs st) (kothak st)) as [l k'].
    simpl in Hlk, Hes. intros Hst.
    assert (i < length ps) as Hi by (rewrite <- Hlen; by eapply lookup_lt_Some).
    rewrite <- Hst. split; simpl.
    + by rewrite length_insert.
    + intros j p Hp. destruct (Hrep j p Hp) as (t & Ht & Hr).
      rewrite sublog_snoc. simpl. destruct (decide (i = j)) as [->|Hne].
      * rewrite decide_True by done. exists (Done a).
        rewrite list_lookup_insert_eq by (by eapply lookup_lt_Some).
        split; [done|]. rewrite E in Ht. injection Ht as <-.
        by apply replays_snoc_leaf.
      * rewrite decide_False by congruence. exists t.
        by rewrite list_lookup_insert_ne.
    + destruct Hmain as (rest & -> & Hall). eexists. split; [done|].
      apply Forall_app. split; [done|]. apply Forall_singleton. by exists i.
    + rewrite errs_of_snoc. simpl. rewrite Hes. destruct a; by rewrite Herrs.
    + rewrite failures_insert_done by done. rewrite Hes.
      destruct a; try done. by apply Permutation_app_tail.
    + intros f name hd. rewrite Hlk.
      destruct (installs a) as [[[f' name'] hd']|] eqn:Ha.
      * case_decide as Hd.
        -- destruct Hd as [<- <-]. intros [= <-]. exists i, a.
           by rewrite list_lookup_insert_eq by (by eapply lookup_lt_Some).
        -- intros Hl. destruct (Hreg f name hd Hl) as (j & b & Hj & Hb).
           exists j, b. split; [|done]. rewrite list_lookup_insert_ne; [done|].
           intros ->. congruence.
      * intros Hl. destruct (Hreg f name hd Hl) as (j & b & Hj & Hb).
        exists j, b. split; [|done]. rewrite list_lookup_insert_ne; [done|].
        intros ->. congruence.
    + intros j b f name hd Hj Hb. rewrite Hlk.
      destruct (decide (i = j)) as [->|Hne].
      * rewrite list_lookup_insert_eq in Hj by (by eapply lookup_lt_Some).
        injection Hj as ->. rewrite Hb. by rewrite decide_True.
      * rewrite list_lookup_insert_ne in Hj by done.
        destruct (installs a) as [[[f' name'] hd']|]; [|by eapply Hbound].
        case_decide; [done|by eapply Hbound].
Qed.

Lemma consistent_run e0 (ps : list prog) sched : forall st,
  consistent e0 ps st -> consistent e0 ps (run respond sched st).
Proof.
  induction sched as [|i sched IH]; intros st H; simpl; [done|].
  apply IH. by apply consistent_step.
Qed.

(** ** Every goroutine returns *)

Lemma run_app sched1 sched2 st :
  run respond (sched1 ++ sched2) st = run respond sched2 (run respond sched1 st).
Proof. unfold run. by rewrite foldl_app. Qed.

Lemma run_cons i sched st :
  run respond (i :: sched) st = run respond sched (step respond i st).
Proof. done. Qed.

Lemma run_length sched : forall st,
  length (pool (run respond sched st)) = length (pool st).
Proof.
  induction sched as [|i sched IH]; intros st; simpl; [done|].
  by rewrite IH, step_length.
Qed.

Lemma run_done sched : forall st j a,
  pool st !! j = Some (Done a) ->
  pool (run respond sched st) !! j = Some (Done a).
Proof.
  induction sched as [|i sched IH]; intros st j a H; simpl; [done|].
  apply IH. by apply step_done.
Qed.

Lemma run_replicate_other m i j : forall st,
  i <> j -> pool (run respond (replicate m i) st) !! j = pool st !! j.
Proof.
  induction m as [|m IH]; intros st Hne; simpl; [done|].
  rewrite IH by done. by apply step_other.
Qed.

Lemma bounded_S n : forall p, bounded n p -> bounded (S n) p.
Proof.
  induction n as [|n IH]; intros [c k|a] H; simpl in *; try done.
  intros r. apply IH, H.
Qed.

Lemma all_bounded_step n i st :
  all_bounded n st -> all_bounded n (step respond i st).
Proof.
  intros H j q Hj. destruct (decide (i = j)) as [->|Hne];
    [|rewrite step_other in Hj by done; by eapply H].
  revert Hj. unfold step.
  destruct (pool st !! j) as [[[c k|a]|a]|] eqn:E; try (rewrite E; naive_solver).
  - destruct (respond c (world st)) as [r w]. cbn [pool].
    rewrite list_lookup_insert_eq by (by eapply lookup_lt_Some).
    intros [= <-]. specialize (H j _ E). destruct n as [|n]; [done|].
    apply bounded_S, H.
  - destruct (do_commit a (errs st) (kothak st)). cbn [pool].
    by rewrite list_lookup_insert_eq by (by eapply lookup_lt_Some).
Qed.

Lemma all_bounded_run n sched : forall st,
  all_bounded n st -> all_bounded n (run respond sched st).
Proof.
  induction sched as [|i sched IH]; intros st H; simpl; [done|].
  by apply IH, all_bounded_step.
Qed.

Lemma run_replicate_finishes n i : forall st q,
  pool st !! i = Some (Running q) -> bounded n q ->
  exists a, pool (run respond (replicate (S n) i) st) !! i = Some (Done a).
Proof.
  induction n as [|n IH]; intros st q Hq Hb.
  - destruct q as [c k|a]; [done|]. exists a. simpl. unfold step. rewrite Hq.
    destruct (do_commit a (errs st) (kothak st)). simpl.
    by rewrite list_lookup_insert_eq by (by eapply lookup_lt_Some).
  - destruct q as [c k|a].
    + change (replicate (S (S n)) i) with (i :: replicate (S n) i).
      rewrite run_cons. apply (IH _ (k (respond c (world st)).1)).
      * unfold step. rewrite Hq. destruct (respond c (world st)) as [r w]. simpl.
        by rewrite list_lookup_insert_eq by (by eapply lookup_lt_Some).
      * apply Hb.
    + exists a. change (replicate (S (S n)) i) with (i :: replicate (S n) i).
      rewrite run_cons. apply run_done. unfold step. rewrite Hq.
      destruct (do_commit a (errs st) (kothak st)). simpl.
      by rewrite list_lookup_insert_eq by (by eapply lookup_lt_Some).
Qed.

Lemma run_finishing_list n (l : list nat) : forall st,
  all_bounded n st ->
  forall i, i ∈ l -> i < length (pool st) ->
  exists a, pool (run respond (concat ((fun i => replicate (S n) i) <$> l)) st) !! i
            = Some (Done a).
Proof.
  induction l as [|j l IH]; intros st Hb i Hin Hi; [by apply elem_of_nil in Hin|].
  rewrite fmap_cons. cbn [concat]. rewrite run_app.
  destruct (decide (i = j)) as [->|Hne].
  - destruct (lookup_lt_is_Some_2 (pool st) j Hi) as [[q|a] Ht].
    + destruct (run_replicate_finishes n j st q Ht (Hb _ _ Ht)) as [a Ha].
      exists a. by apply run_done.
    + exists a. by apply run_done, run_done.
  - apply elem_of_cons in Hin as [|Hin]; [done|].
    apply IH; [by apply all_bounded_run|done|by rewrite run_length].
Qed.

Lemma run_finishing n st :
  all_bounded n st ->
  forallb is_done (pool (run respond (finishing (S n) (length (pool st))) st))
  = true.
Proof.
  intros Hb. apply forallb_forall. intros t Hin.
  apply list_elem_of_In, list_elem_of_lookup in Hin as [i Ht].
  assert (i < length (pool st)) as Hi.
  { apply lookup_lt_Some in Ht. by rewrite run_length in Ht. }
  destruct (run_finishing_list n (seq 0 (length (pool st))) st Hb i) as [a Ha];
    [apply elem_of_seq; lia|done|].
  unfold finishing in Ht. rewrite Ha in Ht. by injection Ht as <-.
Qed.

(** ** CloseAll *)

Lemma foldl_close_one (hs : list handle) : forall acc : World * list handle,
  (foldl (close_one close) acc hs).2 = acc.2 ++ hs.
Proof.
  induction hs as [|hd hs IH]; intros acc; simpl; [by rewrite app_nil_r|].
  rewrite IH. unfold close_one. destruct (close hd acc.1). simpl.
  by rewrite <- app_assoc.
Qed.

Lemma CloseAll_closed (k : Kothak) (it : iteration) (w : World) :
  (CloseAll close k it w).2.2
  = (HStorage <$> (it_objStorages it).*2) ++ (HDB <$> (it_dbs it).*2)
    ++ (HRedis <$> (it_rds it).*2).
Proof.
  unfold CloseAll. cbn [snd]. rewrite !foldl_close_one. simpl.
  by rewrite app_assoc.
Qed.

Lemma ranges_registered_handles (k : Kothak) (it : iteration) :
  ranges k it ->
  (HStorage <$> (it_objStorages it).*2) ++ (HDB <$> (it_dbs it).*2)
  ++ (HRedis <$> (it_rds it).*2) ≡ₚ registered_handles k.
Proof.
  intros (Ho & Hd & Hr). unfold registered_handles. by rewrite Ho, Hd, Hr.
Qed.

Lemma length_registered_handles (k : Kothak) :
  length (registered_handles k)
  = size (objStorages k) + size (dbs k) + size (rds k).
Proof.
  unfold registered_handles. rewrite !length_app, !length_fmap.
  rewrite !length_map_to_list. lia.
Qed.


(** C10: [CloseAll] hands the registry back unchanged, so every accessor
    answers as before, and a second [CloseAll] calls [Close] on every
    handle once more. *)
Theorem CloseAll_keeps_the_registry (k : Kothak) (it1 it2 : iteration) (w : World) :
  ranges k it1 -> ranges k it2 ->
  let r1 := CloseAll close k it1 w in
  let r2 := CloseAll close r1.1.2 it2 r1.2.1 in
  r1.1.2 = k
  /\ (forall f name, get r1.1.2 f name = get k f name)
  /\ (forall f name hd, registry_lookup k f name = Some hd ->
        (get r1.1.2 f name).1 = (Some hd, None))
  /\ r1.2.2 ≡ₚ registered_handles k
  /\ r2.1.2 = k
  /\ r2.2.2 ≡ₚ registered_handles k.
Proof.
  intros H1 H2 r1 r2.
  assert (r1.1.2 = k) as Hk by done.
  split; [done|]. split; [done|]. split.
  - intros f name hd Hl. change (r1.1.2) with k.
    destruct f; simpl in *; unfold GetObjectStorage, GetSQLDB, GetRedis;
      [destruct (objStorages k !! name)|destruct (dbs k !! name)
      |destruct (rds k !! name)]; simpl in *; congruence.
  - split; [|split; [done|]].
    + unfold r1. rewrite CloseAll_closed. by apply ranges_registered_handles.
    + unfold r2. rewrite CloseAll_closed.
      by apply ranges_registered_handles.
Qed.

(** ** Accessors *)

(** C8: for each family, [get] on an absent name returns a nil handle and
    an error and leaves the registry as it is, [mustGet] ends in
    [logger.Fatalf]; on a present name [get] returns the registered handle
    and a nil error. *)
Theorem get_absent_and_present (k : Kothak) (f : family) (name : string) :
  (registry_lookup k f name = None ->
     (exists err, get k f name = ((None, Some err), k))
     /\ (exists msg, mustGet k f name = (Fatalf msg, k)))
  /\ (forall hd, registry_lookup k f name = Some hd ->
        get k f name = ((Some hd, None), k)
        /\ mustGet k f name = (Value hd, k)).
Proof.
  split.
  - intros Hl. destruct f; simpl in *;
      unfold GetObjectStorage, GetSQLDB, GetRedis,
        MustGetObjectStorage, MustGetSQLDB, MustGetRedis;
      [destruct (objStorages k !! name)|destruct (dbs k !! name)
      |destruct (rds k !! name)]; simpl in *; try done; eauto.
  - intros hd Hl. destruct f; simpl in *;
      unfold GetObjectStorage, GetSQLDB, GetRedis,
        MustGetObjectStorage, MustGetSQLDB, MustGetRedis;
      [destruct (objStorages k !! name)|destruct (dbs k !! name)
      |destruct (rds k !! name)]; simpl in *; try done;
      by injection Hl as <-.
Qed.

(** ** Programs and their traces *)

Lemma bounded_try n c (k : ret c -> prog) :
  (forall v, bounded n (k v)) -> bounded (S n) (try_call c k).
Proof. intros H. unfold try_call. simpl. intros [v|e]; [apply H|done]. Qed.

Lemma objStorage_unit_bounded config : bounded 4 (objStorage_unit ToLower config).
Proof.
  unfold objStorage_unit. repeat case_decide;
    repeat (apply bounded_try; intros ?); done.
Qed.

Lemma redis_unit_bounded rc redisconfig : bounded 4 (redis_unit rc redisconfig).
Proof. unfold redis_unit. repeat (apply bounded_try; intros ?); done. Qed.

Lemma db_unit_bounded dbc dbconfig : bounded 4 (db_unit dbc dbconfig).
Proof.
  unfold db_unit. do 2 (apply bounded_try; intros ?).
  case_decide; repeat (apply bounded_try; intros ?); done.
Qed.

Lemma spawned_all_bounded kothakConfig dbc (w : World) :
  all_bounded 4 (spawned ToLower kothakConfig dbc w).
Proof.
  intros i q Hq. simpl in Hq. unfold units in Hq.
  rewrite !list_lookup_fmap in Hq.
  destruct (resources kothakConfig dbc !! i) as [r|]; [|done].
  injection Hq as <-. destruct r;
    [apply objStorage_unit_bounded|apply redis_unit_bounded
    |apply db_unit_bounded].
Qed.

Lemma replays_leaf_of es : forall p a, replays es p (Done a) -> leaf_of p a.
Proof.
  induction es as [|e es IH]; intros p a H; simpl in *; [done|].
  destruct p as [c k|b]; simpl.
  - destruct H as (r & _ & H). exists r. by apply IH.
  - by destruct H as (_ & _ & [= ->]).
Qed.

Lemma to_retval_ok c (r : result (ret c)) :
  is_failure (EvCall c (to_retval c r)) = false -> exists v, r = Ok v.
Proof. destruct c, r; simpl; try done; eauto. Qed.

Lemma replays_ok_leaf_of es : forall p a,
  replays es p (Done a) -> Forall (fun e => is_failure e = false) es ->
  ok_leaf_of p a.
Proof.
  induction es as [|e es IH]; intros p a H Hok; simpl in *; [done|].
  apply Forall_cons in Hok as [He Hok].
  destruct p as [c k|b]; simpl.
  - destruct H as (r & -> & H). apply to_retval_ok in He as [v ->].
    exists v. by apply IH.
  - by destruct H as (_ & _ & [= ->]).
Qed.

Lemma replays_never_calls P es : forall p t,
  replays es p t -> never_calls P p ->
  forall c v, EvCall c v ∈ es -> ~ P c.
Proof.
  induction es as [|e es IH]; intros p t H Hn c v Hin; simpl in *.
  - by apply elem_of_nil in Hin.
  - destruct p as [c0 k|b]; simpl in Hn.
    + destruct H as (r & -> & H). destruct Hn as [Hc Hn].
      apply elem_of_cons in Hin as [[= -> _]|Hin]; [done|].
      by eapply IH.
    + destruct H as (-> & -> & _). by apply list_elem_of_singleton in Hin.
Qed.

Lemma leaf_of_try c (k : ret c -> prog) a :
  leaf_of (try_call c k) a ->
  (exists e, a = AppendErr e) \/ (exists v, leaf_of (k v) a).
Proof. unfold try_call. simpl. intros [[v|e] H]; simpl in H; eauto. Qed.

Lemma ok_leaf_of_try c (k : ret c -> prog) a :
  ok_leaf_of (try_call c k) a -> exists v, ok_leaf_of (k v) a.
Proof. unfold try_call. simpl. intros [v H]; eauto. Qed.

(** A goroutine writes to the slot of its own resource only. *)
Lemma unit_leaf_slot kothakConfig dbc r a f name hd :
  leaf_of (unit_of ToLower kothakConfig dbc r) a ->
  installs a = Some (f, name, hd) -> (f, name) = slot_of r.
Proof.
  destruct r as [config|redisconfig|dbconfig]; cbn [unit_of slot_of].
  - unfold objStorage_unit. repeat case_decide; intros Hlf;
      repeat (apply leaf_of_try in Hlf; destruct Hlf as [[e ->]|[? Hlf]]; [done|]);
      simpl in Hlf; subst a; simpl; congruence.
  - unfold redis_unit. intros Hlf.
    repeat (apply leaf_of_try in Hlf; destruct Hlf as [[e ->]|[? Hlf]]; [done|]);
      simpl in Hlf; subst a; simpl; congruence.
  - unfold db_unit. intros Hlf.
    do 2 (apply leaf_of_try in Hlf; destruct Hlf as [[e ->]|[? Hlf]]; [done|]).
    case_decide;
      repeat (apply leaf_of_try in Hlf; destruct Hlf as [[e ->]|[? Hlf]]; [done|]);
      simpl in Hlf; subst a; simpl; congruence.
Qed.

(** When none of its calls fails, a goroutine installs a handle, unless it
    is an object storage with an unknown provider. *)
Lemma unit_ok_leaf kothakConfig dbc r a :
  ok_leaf_of (unit_of ToLower kothakConfig dbc r) a ->
  match r with
  | RObjStorage config =>
      if decide (recognized ToLower (Provider config))
      then exists hd, installs a = Some (slot_of r, hd)
      else a = AppendErr provider_not_found
  | _ => exists hd, installs a = Some (slot_of r, hd)
  end.
Proof.
  destruct r as [config|redisconfig|dbconfig]; cbn [unit_of slot_of].
  - destruct (decide (recognized ToLower (Provider config))) as [Hrec|Hrec];
      unfold recognized in Hrec;
      rewrite !elem_of_cons, elem_of_nil in Hrec;
      unfold objStorage_unit; repeat case_decide; intros Hlf;
      repeat (apply ok_leaf_of_try in Hlf; destruct Hlf as [? Hlf]);
      simpl in Hlf; subst a; simpl; eauto; exfalso; tauto.
  - unfold redis_unit. intros Hlf.
    repeat (apply ok_leaf_of_try in Hlf; destruct Hlf as [? Hlf]); simpl in Hlf; subst a;
      simpl; eauto.
  - unfold db_unit. intros Hlf. do 2 (apply ok_leaf_of_try in Hlf; destruct Hlf as [? Hlf]).
    case_decide; repeat (apply ok_leaf_of_try in Hlf; destruct Hlf as [? Hlf]);
      simpl in Hlf; subst a; simpl; eauto.
Qed.

Lemma unit_never_sets_DBConfig_default kothakConfig dbc r :
  never_calls is_DBConfig_SetDefault (unit_of ToLower kothakConfig dbc r).
Proof.
  destruct r as [config|redisconfig|dbconfig]; simpl.
  - unfold objStorage_unit. repeat case_decide; simpl;
      repeat (split; [tauto|intros [?|?]; simpl]); done.
  - unfold redis_unit. simpl. repeat (split; [tauto|intros [?|?]; simpl]); done.
  - unfold db_unit. simpl.
    do 2 (split; [tauto|intros [?|?]; simpl]; try done).
    case_decide; simpl; repeat (split; [tauto|intros [?|?]; simpl]); done.
Qed.

(** ** New *)

Section New.

Variables (kothakConfig : Config) (sched : list nat) (w : World).

Local Abbreviation c0 := (DBConfig_SetDefault (cfg_DBConfig kothakConfig)).
Local Abbreviation res := (New ToLower respond kothakConfig sched w).

Lemma New_default_fails err w1 :
  respond c0 w = (Err err, w1) ->
  res = (Returns None (Some err),
         {| world := w1; log := [(None, EvCall c0 (RErr err))];
            errs := []; kothak := empty_Kothak; pool := [] |}).
Proof. intros H. unfold New. by rewrite H. Qed.

Lemma New_default_ok dbc w1 :
  respond c0 w = (Ok dbc, w1) ->
  res.2 = run respond sched (spawned ToLower kothakConfig dbc w1)
  /\ res.1 = if forallb is_done (pool res.2)
             then Returns (Some (kothak res.2)) (head (errs res.2))
             else Waiting.
Proof. intros H. unfold New. by rewrite H. Qed.

Lemma New_consistent dbc w1 :
  respond c0 w = (Ok dbc, w1) ->
  consistent (c0, RDBConfig dbc) (units ToLower kothakConfig dbc) res.2.
Proof.
  intros H. destruct (New_default_ok dbc w1 H) as [-> _].
  apply consistent_run, consistent_init.
Qed.

Lemma New_returned dbc w1 k err :
  respond c0 w = (Ok dbc, w1) -> res.1 = Returns k err ->
  k = Some (kothak res.2) /\ err = head (errs res.2)
  /\ forall i t, pool res.2 !! i = Some t -> exists a, t = Done a.
Proof.
  intros H Hret. destruct (New_default_ok dbc w1 H) as [_ Heq].
  rewrite Heq in Hret.
  destruct (forallb is_done (pool res.2)) eqn:Hall; [|done].
  injection Hret as <- <-. do 2 (split; [done|]).
  intros i t Ht. rewrite forallb_forall in Hall.
  specialize (Hall t). destruct t as [q|a]; [|by exists a].
  discriminate Hall. apply list_elem_of_In, list_elem_of_lookup. by exists i.
Qed.

Lemma New_thread dbc w1 i r :
  respond c0 w = (Ok dbc, w1) ->
  resources kothakConfig dbc !! i = Some r ->
  exists t, pool res.2 !! i = Some t
            /\ replays (sublog (Some i) (log res.2))
                 (unit_of ToLower kothakConfig dbc r) t.
Proof.
  intros H Hr. apply (cons_replays (New_consistent dbc w1 H)).
  unfold units. by rewrite list_lookup_fmap, Hr.
Qed.

Lemma New_resource dbc w1 i t :
  respond c0 w = (Ok dbc, w1) -> pool res.2 !! i = Some t ->
  exists r, resources kothakConfig dbc !! i = Some r.
Proof.
  intros H Ht. apply lookup_lt_Some in Ht.
  rewrite (cons_length (New_consistent dbc w1 H)) in Ht.
  unfold units in Ht. rewrite length_fmap in Ht.
  by apply lookup_lt_is_Some_2.
Qed.

Lemma New_done_slot dbc w1 i r a f name hd :
  respond c0 w = (Ok dbc, w1) ->
  resources kothakConfig dbc !! i = Some r ->
  pool res.2 !! i = Some (Done a) -> installs a = Some (f, name, hd) ->
  (f, name) = slot_of r.
Proof.
  intros H Hr Ha Hi. destruct (New_thread dbc w1 i r H Hr) as (t & Ht & Hrep).
  rewrite Ha in Ht. injection Ht as <-.
  eapply unit_leaf_slot; [|done]. by eapply replays_leaf_of.
Qed.

Lemma New_registered dbc w1 i r a f name hd :
  respond c0 w = (Ok dbc, w1) ->
  resources kothakConfig dbc !! i = Some r ->
  pool res.2 !! i = Some (Done a) -> installs a = Some (f, name, hd) ->
  is_Some (registry_lookup (kothak res.2) f name)
  /\ ((forall j r', resources kothakConfig dbc !! j = Some r' ->
                    slot_of r' = slot_of r -> j = i) ->
      registry_lookup (kothak res.2) f name = Some hd).
Proof.
  intros H Hr Ha Hi. pose proof (New_consistent dbc w1 H) as Hc.
  assert ((f, name) = slot_of r) as Hslot by (by eapply New_done_slot).
  destruct (cons_bound Hc i a f name hd Ha Hi) as [hd' Hl].
  split; [by exists hd'|]. intros Huniq.
  destruct (cons_registered Hc f name hd' Hl) as (j & b & Hb & Hib).
  destruct (New_resource _ _ _ _ H Hb) as [r' Hr'].
  assert ((f, name) = slot_of r') as Hslot' by (by eapply New_done_slot).
  assert (j = i) as -> by (apply (Huniq j r'); [done|congruence]).
  rewrite Ha in Hb. injection Hb as <-. congruence.
Qed.

End New.

(** Whatever happened so far, [group.Wait] returns once the goroutines are
    allowed to run on. *)
Lemma New_can_return kothakConfig sched (w : World) :
  exists more,
    (New ToLower respond kothakConfig (sched ++ more) w).1 <> Waiting.
Proof.
  destruct (respond (DBConfig_SetDefault (cfg_DBConfig kothakConfig)) w)
    as [[dbc|err] w1] eqn:H.
  - set (st := run respond sched (spawned ToLower kothakConfig dbc w1)).
    exists (finishing 5 (length (pool st))).
    destruct (New_default_ok kothakConfig (sched ++ finishing 5 (length (pool st)))
                w dbc w1 H) as [Hst ->].
    rewrite Hst, run_app. fold st. rewrite run_finishing; [done|].
    apply all_bounded_run, spawned_all_bounded.
  - exists []. by rewrite (New_default_fails _ _ _ err w1 H).
Qed.



(** ** Database goroutines *)

Lemma replays_leaf_done es a b :
  replays es (Leaf b) (Done a) -> es = [EvCommit b] /\ a = b.
Proof.
  destruct es as [|e es]; simpl; [done|]. by intros (-> & -> & [= ->]).
Qed.

Lemma replays_try_done c (k : ret c -> prog) es a :
  replays es (try_call c k) (Done a) ->
  (exists e, es = [EvCall c (RErr e); EvCommit (AppendErr e)]
             /\ a = AppendErr e)
  \/ (exists v es', es = EvCall c (to_retval c (Ok v)) :: es'
                    /\ replays es' (k v) (Done a)).
Proof.
  destruct es as [|e es]; simpl; [done|]. intros ([v|err] & -> & H).
  - right. eauto.
  - left. apply replays_leaf_done in H as [-> ->]. exists err.
    split; [|done]. by destruct c.
Qed.

Ltac replay_done H :=
  repeat match type of H with
    | replays _ (try_call _ _) (Done _) =>
        apply replays_try_done in H;
        destruct H as [(? & ? & ?)|(? & ? & ? & H)]
    | replays _ (Leaf _) (Done _) =>
        apply replays_leaf_done in H; destruct H as [? ?]
    | replays _ (if decide ?P then _ else _) _ => destruct (decide P)
    end.

Lemma resources_db_index kothakConfig dbc idx d :
  SQLDBs dbc !! idx = Some d ->
  resources kothakConfig dbc !! db_index kothakConfig idx = Some (RSQLDB d).
Proof.
  intros H. unfold resources, db_index.
  rewrite lookup_app_r by (rewrite length_fmap; lia).
  rewrite lookup_app_r by (rewrite !length_fmap; lia).
  rewrite !length_fmap.
  replace (_ + _ + idx - _ - _) with idx by lia.
  by rewrite list_lookup_fmap, H.
Qed.

(** C4: the handle a database goroutine installs has the pool of the one
    [sqldb.Connect] it made as leader and as follower when the replica DSN
    is empty; otherwise the follower is the pool of a second
    [sqldb.Connect], made after the leader's. *)
Theorem follower_aliases_leader kothakConfig sched (w : World) dbc w1 idx d name db :
  respond (DBConfig_SetDefault (cfg_DBConfig kothakConfig)) w = (Ok dbc, w1) ->
  SQLDBs dbc !! idx = Some d ->
  let st := (New ToLower respond kothakConfig sched w).2 in
  let es := sublog (Some (db_index kothakConfig idx)) (log st) in
  pool st !! db_index kothakConfig idx = Some (Done (SetDB name db)) ->
  name = db_Name d
  /\ exists leaderConf,
      let leader_connect :=
        EvCall (sqldb_Connect (Driver d) (DSN leaderConf)
                  (connect_options leaderConf)) (RRef (leader db)) in
      let follower_connect :=
        EvCall (sqldb_Connect (Driver d) (DSN (ReplicaConnConfig d))
                  (connect_options (ReplicaConnConfig d)))
          (RRef (follower db)) in
      (DSN (ReplicaConnConfig d) = "" ->
         follower db = leader db
         /\ List.filter is_connect es = [leader_connect])
      /\ (DSN (ReplicaConnConfig d) <> "" ->
           List.filter is_connect es = [leader_connect; follower_connect]).
Proof.
  intros Hdef Hd st es Hdone.
  destruct (New_thread kothakConfig sched w dbc w1 _ _ Hdef
              (resources_db_index kothakConfig dbc idx d Hd))
    as (t & Ht & Hrep).
  fold st in Ht, Hrep. fold es in Hrep. rewrite Hdone in Ht.
  injection Ht as <-. clearbody es. cbn [unit_of] in Hrep. unfold db_unit in Hrep.
  replay_done Hrep; simplify_eq; (split; [done|]);
    match goal with x : ret (ConnConfig_SetDefault _ _) |- _ => exists x end;
    simpl; split; intros; done.
Qed.

Lemma elem_of_sublog who h e : (who, e) ∈ h -> e ∈ sublog who h.
Proof.
  intros H. unfold sublog. apply list_elem_of_omap. exists (who, e).
  split; [done|]. simpl. by rewrite decide_True.
Qed.

Lemma replays_leaf_inv es b t :
  replays es (Leaf b) t -> es = [] \/ es = [EvCommit b].
Proof.
  destruct es as [|e es]; simpl; [by left|]. intros (-> & -> & _). by right.
Qed.

(** C9: a database entry with an empty driver is brought up like any
    other.  Its goroutine defaults the leader connection and, when that
    succeeded, connects the leader and, with a replica DSN, the follower,
    passing the empty driver; an error it records is the error one of
    these calls returned, and when no call fails it installs its handle. *)
Theorem empty_driver_is_not_rejected kothakConfig sched (w : World) dbc w1 idx d a :
  respond (DBConfig_SetDefault (cfg_DBConfig kothakConfig)) w = (Ok dbc, w1) ->
  SQLDBs dbc !! idx = Some d ->
  Driver d = "" ->
  let st := (New ToLower respond kothakConfig sched w).2 in
  let es := sublog (Some (db_index kothakConfig idx)) (log st) in
  let replica := ReplicaConnConfig d in
  pool st !! db_index kothakConfig idx = Some (Done a) ->
  (forall drv dsn o v, EvCall (sqldb_Connect drv dsn o) v ∈ es -> drv = "")
  /\ (forall e, a = AppendErr e -> exists c, EvCall c (RErr e) ∈ es)
  /\ (exists v0 es1,
        es = EvCall (ConnConfig_SetDefault (LeaderConnConfig d) dbc) v0 :: es1
        /\ forall leaderConf, v0 = RConnConfig leaderConf ->
           exists v1 es2,
             es1 = EvCall (sqldb_Connect "" (DSN leaderConf)
                             (connect_options leaderConf)) v1 :: es2
             /\ (forall e, v1 = RErr e -> a = AppendErr e)
             /\ (forall leaderDB, v1 = RRef leaderDB -> DSN replica <> "" ->
                   exists v2 es3,
                     es2 = EvCall (sqldb_Connect "" (DSN replica)
                                     (connect_options replica)) v2 :: es3
                     /\ (forall e, v2 = RErr e -> a = AppendErr e)))
  /\ (Forall (fun e => is_failure e = false) es ->
      exists db, a = SetDB (db_Name d) db).
Proof.
  intros Hdef Hd Hdrv st es replica Hdone.
  destruct (New_thread kothakConfig sched w dbc w1 _ _ Hdef
              (resources_db_index kothakConfig dbc idx d Hd))
    as (t & Ht & Hrep).
  fold st in Ht, Hrep. fold es in Hrep. rewrite Hdone in Ht.
  injection Ht as <-. clearbody es. cbn [unit_of] in Hrep.
  unfold db_unit in Hrep. subst replica. rewrite Hdrv in Hrep.
  replay_done Hrep; simplify_eq; simpl.
  all: split;
    [intros drv dsn o v Hin;
     repeat (apply elem_of_cons in Hin as [Hin|Hin]; [by simplify_eq|]);
     by apply elem_of_nil in Hin|].
  all: split;
    [intros e' ?; simplify_eq;
     try (eexists; rewrite ?elem_of_cons; eauto 10; fail)|].
  all: split;
    [|rewrite ?Forall_cons; simpl; intros Hok;
      try (by intuition discriminate); eauto].
  all: do 2 eexists; (split; [reflexivity|]); intros lc ?; simplify_eq.
  all: do 2 eexists; (split; [reflexivity|]);
    (split; [intros ? ?; by simplify_eq|]).
  all: intros l ? Hne; simplify_eq; try done.
  all: do 2 eexists; (split; [reflexivity|]); intros ? ?; by simplify_eq.
Qed.

(** ** Defaulting *)

(** C3 (as amended): the defaulting of [DBConfig] is called once, by [New]
    itself and before any goroutine does anything, and its failure is
    fatal: [New] returns a nil registry and that error, and no goroutine is
    started.  The defaulting of the leader connection of a database entry,
    however, is the first call of that entry's goroutine; when it fails
    the goroutine appends the error to [errs] and returns, and [New] still
    returns a registry. *)
Theorem defaulting_in_New kothakConfig sched (w : World) :
  let c0 := DBConfig_SetDefault (cfg_DBConfig kothakConfig) in
  let res := New ToLower respond kothakConfig sched w in
  (exists rest,
     log res.2 = (None, EvCall c0 (to_retval c0 (respond c0 w).1)) :: rest
     /\ Forall (fun x => (exists i, x.1 = Some i)
                         /\ forall c v, x.2 = EvCall c v ->
                                        ~ is_DBConfig_SetDefault c) rest)
  /\ (forall err, (respond c0 w).1 = Err err ->
        res.1 = Returns None (Some err)
        /\ pool res.2 = []
        /\ log res.2 = [(None, EvCall c0 (RErr err))])
  /\ (forall dbc, (respond c0 w).1 = Ok dbc ->
        (forall k err, res.1 = Returns k err -> is_Some k)
        /\ forall idx d, SQLDBs dbc !! idx = Some d ->
           let es := sublog (Some (db_index kothakConfig idx)) (log res.2) in
           es = []
           \/ exists v es',
                es = EvCall (ConnConfig_SetDefault (LeaderConnConfig d) dbc) v
                     :: es'
                /\ forall err, v = RErr err ->
                     es' = [] \/ es' = [EvCommit (AppendErr err)]).
Proof.
  intros c0 res.
  destruct (respond c0 w) as [[dbc|err] w1] eqn:Hdef; cbn [fst].
  - pose proof (New_consistent kothakConfig sched w dbc w1 Hdef) as Hc.
    fold res in Hc. split; [|split; [done|]].
    + destruct (cons_main Hc) as (rest & Hlog & Hall). exists rest.
      split; [done|]. apply Forall_forall. intros [who e] Hin.
      rewrite Forall_forall in Hall.
      destruct (Hall _ Hin) as (i & Hwho & Hi). simpl in *. subst who.
      split; [by exists i|]. intros c v ->.
      unfold units in Hi. rewrite length_fmap in Hi.
      destruct (lookup_lt_is_Some_2 _ _ Hi) as [r Hr].
      destruct (New_thread kothakConfig sched w dbc w1 i r Hdef Hr)
        as (t & _ & Hrep).
      eapply replays_never_calls;
        [done|apply unit_never_sets_DBConfig_default|].
      apply elem_of_sublog. fold res. rewrite Hlog. by right.
    + intros dbc' [= <-]. split.
      * intros k e Hret.
        by destruct (New_returned _ _ _ _ _ _ _ Hdef Hret) as (-> & _).
      * intros idx d Hd.
        destruct (New_thread kothakConfig sched w dbc w1 _ _ Hdef
                    (resources_db_index kothakConfig dbc idx d Hd))
          as (t & _ & Hrep).
        fold res in Hrep.
        set (es := sublog (Some (db_index kothakConfig idx)) (log res.2)) in *.
        clearbody es. destruct es as [|e es']; [by left|right].
        cbn [unit_of] in Hrep. unfold db_unit, try_call in Hrep.
        simpl in Hrep. destruct Hrep as ([lc|e0] & -> & Hrep).
        -- do 2 eexists. split; [done|]. by intros.
        -- do 2 eexists. split; [done|]. intros ? [= <-].
           by eapply replays_leaf_inv.
  - unfold res. rewrite (New_default_fails _ _ _ err w1 Hdef). simpl.
    split; [|split; [by intros ? [= <-]|done]].
    exists []. by split.
Qed.

(** ** Object storage providers *)

Lemma sublog_Forall (P : event -> Prop) who h :
  Forall (fun x => P x.2) h -> Forall P (sublog who h).
Proof.
  rewrite !Forall_forall. intros H e He.
  apply list_elem_of_omap in He as ([who' e'] & Hin & Heq). simpl in Heq.
  case_decide; [|done]. injection Heq as <-. by apply (H _ Hin).
Qed.

Lemma objStorage_unit_unrecognized config :
  ~ recognized ToLower (Provider config) ->
  objStorage_unit ToLower config = Leaf (AppendErr provider_not_found).
Proof.
  unfold recognized, objStorage_unit. rewrite !elem_of_cons, elem_of_nil.
  intros Hn. repeat case_decide; try done; exfalso; tauto.
Qed.

Lemma resources_objStorage kothakConfig dbc i config :
  cfg_ObjectStorageConfig kothakConfig !! i = Some config ->
  resources kothakConfig dbc !! i = Some (RObjStorage config).
Proof.
  intros H. unfold resources. apply lookup_app_l_Some.
  by rewrite list_lookup_fmap, H.
Qed.


(** ** Unsynchronized writes *)

Lemma run_untouched sched : forall st j,
  j ∉ sched -> pool (run respond sched st) !! j = pool st !! j.
Proof.
  induction sched as [|i sched IH]; intros st j Hj; [done|].
  rewrite run_cons, IH by (by intros ?; apply Hj; right).
  apply step_other. intros ->. apply Hj. by left.
Qed.

Lemma run_to_leaf n i : forall st q,
  pool st !! i = Some (Running q) -> bounded n q ->
  exists m a,
    pool (run respond (replicate m i) st) !! i = Some (Running (Leaf a)).
Proof.
  induction n as [|n IH]; intros st [c k|a] Hq Hb; try done;
    try (by exists 0, a).
  destruct (IH (step respond i st) (k (respond c (world st)).1)) as (m & a & H).
  - unfold step. rewrite Hq. destruct (respond c (world st)) as [r w']. simpl.
    by rewrite list_lookup_insert_eq by (by eapply lookup_lt_Some).
  - apply Hb.
  - by exists (S m), a.
Qed.

Lemma run_all_to_leaf n (l : list nat) : forall st,
  NoDup l -> all_bounded n st ->
  (forall i, i ∈ l -> exists q, pool st !! i = Some (Running q)) ->
  exists sched,
    (forall i, i ∈ sched -> i ∈ l)
    /\ forall i, i ∈ l ->
         exists a, pool (run respond sched st) !! i = Some (Running (Leaf a)).
Proof.
  induction l as [|j l IH]; intros st Hnd Hb Hrun.
  - exists []. split; intros i Hi; by apply elem_of_nil in Hi.
  - apply NoDup_cons in Hnd as [Hj Hnd].
    destruct (Hrun j) as [q Hq]; [by left|].
    destruct (run_to_leaf n j st q Hq (Hb _ _ Hq)) as (m & a & Ha).
    destruct (IH (run respond (replicate m j) st) Hnd) as (sched & Hin & Hall).
    + by apply all_bounded_run.
    + intros i Hi. rewrite run_replicate_other by (intros ->; done).
      apply Hrun. by right.
    + exists (replicate m j ++ sched). split.
      * intros i Hi. apply elem_of_app in Hi as [Hi|Hi]; [|right; by apply Hin].
        apply elem_of_replicate in Hi as [-> _]. by left.
      * intros i Hi. rewrite run_app.
        apply elem_of_cons in Hi as [->|Hi]; [|by apply Hall].
        exists a. rewrite run_untouched; [done|]. intros Hjs. by apply Hj, Hin.
Qed.

Lemma repeated_or_NoDup {A} `{EqDecision A} (l : list A) :
  NoDup l
  \/ exists i j x, i < j /\ l !! i = Some x /\ l !! j = Some x.
Proof.
  induction l as [|a l [IH|(i & j & x & Hij & Hi & Hj)]].
  - left. constructor.
  - destruct (decide (a ∈ l)) as [Hin|Hin].
    + right. apply list_elem_of_lookup in Hin as [j Hj].
      exists 0, (S j), a. split; [lia|done].
    + left. by constructor.
  - right. exists (S i), (S j), x. split; [lia|done].
Qed.

Lemma locations_repeat (ls : list location) :
  4 < length ls ->
  exists i j l, i < j /\ ls !! i = Some l /\ ls !! j = Some l.
Proof.
  intros Hlen. destruct (repeated_or_NoDup ls) as [Hnd|H]; [|done].
  assert (ls ⊆+ [LocErrs; LocObjStorages; LocDbs; LocRds]) as Hsub.
  { apply NoDup_submseteq; [done|]. intros [] _; set_solver. }
  apply submseteq_length in Hsub. simpl in Hsub. lia.
Qed.

(** C6 (the code does not have this property): whatever the environment,
    when five or more resources are configured - fifty, say - the
    goroutines of [New] can reach a state in which two of them are about to
    write the same shared location, [errs] or one map of the registry, and
    nothing orders the two writes. *)
Theorem New_races kothakConfig (w : World) dbc w1 :
  respond (DBConfig_SetDefault (cfg_DBConfig kothakConfig)) w = (Ok dbc, w1) ->
  5 <= length (resources kothakConfig dbc) ->
  exists sched, race (New ToLower respond kothakConfig sched w).2.
Proof.
  intros Hdef Hlen.
  set (st0 := spawned ToLower kothakConfig dbc w1).
  assert (length (pool st0) = length (resources kothakConfig dbc)) as Hpool
    by (simpl; unfold units; by rewrite !length_fmap).
  destruct (run_all_to_leaf 4 (seq 0 (length (pool st0))) st0)
    as (sched & _ & Hall).
  - apply NoDup_seq.
  - apply spawned_all_bounded.
  - intros i Hi. apply elem_of_seq in Hi.
    destruct (lookup_lt_is_Some_2 (units ToLower kothakConfig dbc) i)
      as [q Hq].
    { unfold units. rewrite length_fmap. lia. }
    exists q. simpl. by rewrite list_lookup_fmap, Hq.
  - exists sched.
    destruct (New_default_ok kothakConfig sched w dbc w1 Hdef) as [-> _].
    fold st0. set (st := run respond sched st0) in *.
    set (loc := fun t => match t with
                         | Running (Leaf a) => writes a
                         | _ => LocErrs
                         end).
    destruct (locations_repeat (loc <$> pool st)) as (i & j & l & Hij & Hi & Hj).
    { rewrite length_fmap. unfold st. rewrite run_length. lia. }
    assert (forall i l, (loc <$> pool st) !! i = Some l ->
                        about_to_write st i l) as Hwr.
    { intros i' l' Hl. apply list_lookup_fmap_Some in Hl as (t & -> & Ht).
      destruct (Hall i') as [a Ha].
      - apply elem_of_seq. apply lookup_lt_Some in Ht.
        unfold st in Ht. rewrite run_length in Ht. lia.
      - pose proof (eq_trans (eq_sym Ht) Ha) as [= ->]. by exists a. }
    exists i, j, l. split; [lia|]. split; by apply Hwr.
Qed.

End KothakFacts.

(** * The statements on concrete runs *)

Lemma sample_default_ok (objs : list ObjectStorageConfig) :
  respond_ok (DBConfig_SetDefault (cfg_DBConfig (sample_config objs))) 0
  = (Ok (cfg_DBConfig (sample_config objs)), 0).
Proof. reflexivity. Defined.




(** C3 as stated fails: the defaulting of a leader connection is called
    by the goroutine of its database entry, and when it fails only that
    entry is missing from the registry [New] returns. *)
Lemma leader_defaulting_fails_inside_its_goroutine :
  sublog (Some 3) (log leader_default_run.2)
  = [EvCall (ConnConfig_SetDefault (sample_conn "leader-report")
               (cfg_DBConfig (sample_config [])))
       (RErr "database: bad leader defaults");
     EvCommit (AppendErr "database: bad leader defaults")]
  /\ exists registry,
       leader_default_run.1
       = Returns (Some registry) (Some "database: bad leader defaults")
       /\ dbs registry !! "main" = Some {| leader := 2; follower := 2 |}
       /\ dbs registry !! "report" = None.
Proof.
  split; [vm_compute; reflexivity|].
  exists (kothak leader_default_run.2).
  split; [|split]; vm_compute; reflexivity.
Qed.

Lemma follower_aliases_leader_witness :
  respond_ok (DBConfig_SetDefault (cfg_DBConfig (sample_config sample_objs))) 0
  = (Ok (cfg_DBConfig (sample_config sample_objs)), 0)
  /\ pool sample_run.2 !! 4
     = Some (Done (SetDB "main" {| leader := 5; follower := 5 |}))
  /\ exists leaderConf,
       List.filter is_connect (sublog (Some 4) (log sample_run.2))
       = [EvCall (sqldb_Connect "postgres" (DSN leaderConf)
                    (connect_options leaderConf)) (RRef 5)].
Proof.
  assert (pool sample_run.2 !! 4
          = Some (Done (SetDB "main" {| leader := 5; follower := 5 |})))
    as Hdone by (vm_compute; reflexivity).
  split; [apply sample_default_ok|]. split; [exact Hdone|].
  destruct (follower_aliases_leader ascii_ToLower nat respond_ok
              (sample_config sample_objs) (finishing 5 6) 0 _ _ 0
              {| db_Name := "main"; Driver := "postgres";
                 LeaderConnConfig := sample_conn "leader-main";
                 ReplicaConnConfig := sample_conn "" |}
              "main" {| leader := 5; follower := 5 |}
              (sample_default_ok sample_objs) eq_refl Hdone)
    as (_ & leaderConf & Hnone & _).
  exists leaderConf. exact (proj2 (Hnone eq_refl)).
Defined.


Lemma New_races_witness :
  respond_ok (DBConfig_SetDefault (cfg_DBConfig stress_config)) 0
  = (Ok (cfg_DBConfig stress_config), 0)
  /\ length (resources stress_config (cfg_DBConfig stress_config)) = 50
  /\ exists sched, race (New ascii_ToLower respond_ok stress_config sched 0).2.
Proof.
  assert (length (resources stress_config (cfg_DBConfig stress_config)) = 50)
    as Hlen by (vm_compute; reflexivity).
  split; [reflexivity|]. split; [exact Hlen|].
  apply (New_races ascii_ToLower nat respond_ok stress_config 0
           (cfg_DBConfig stress_config) 0); [reflexivity|].
  rewrite Hlen. repeat constructor.
Defined.

(** Two goroutines that both end in [errs = append(errs, err)] race from
    the moment they are spawned. *)
Lemma New_races_on_errs :
  race (New ascii_ToLower respond_ok
          (sample_config [sample_objStorage "backup" "ftp";
                          sample_objStorage "archive" "sftp"]) [] 0).2.
Proof.
  exists 0, 1, LocErrs. split; [discriminate|].
  split; exists (AppendErr provider_not_found); split; vm_compute; reflexivity.
Qed.


Lemma CloseAll_keeps_the_registry_witness :
  ranges sample_registry (forward_iteration sample_registry)
  /\ ranges sample_registry (backward_iteration sample_registry)
  /\ (CloseAll close_ok
        (CloseAll close_ok sample_registry
           (forward_iteration sample_registry) 0).1.2
        (backward_iteration sample_registry)
        (CloseAll close_ok sample_registry
           (forward_iteration sample_registry) 0).2.1).2.2
     ≡ₚ registered_handles sample_registry.
Proof.
  assert (ranges sample_registry (forward_iteration sample_registry)) as Hr1
    by (split; [|split]; apply Permutation_refl).
  assert (ranges sample_registry (backward_iteration sample_registry)) as Hr2
    by (split; [|split]; apply reverse_Permutation).
  split; [exact Hr1|]. split; [exact Hr2|].
  exact (proj2 (proj2 (proj2 (proj2 (proj2
           (CloseAll_keeps_the_registry nat close_ok sample_registry
              (forward_iteration sample_registry)
              (backward_iteration sample_registry) 0 Hr1 Hr2)))))).
Defined.

Lemma empty_driver_is_not_rejected_witness :
  respond_ok (DBConfig_SetDefault (cfg_DBConfig (sample_config sample_objs))) 0
  = (Ok (cfg_DBConfig (sample_config sample_objs)), 0)
  /\ pool sample_run.2 !! 5
     = Some (Done (SetDB "report" {| leader := 6; follower := 7 |}))
  /\ forall drv dsn o v,
       EvCall (sqldb_Connect drv dsn o) v ∈ sublog (Some 5) (log sample_run.2)
       -> drv = "".
Proof.
  assert (pool sample_run.2 !! 5
          = Some (Done (SetDB "report" {| leader := 6; follower := 7 |})))
    as Hdone by (vm_compute; reflexivity).
  split; [apply sample_default_ok|]. split; [exact Hdone|].
  exact (proj1 (empty_driver_is_not_rejected ascii_ToLower nat respond_ok
                  (sample_config sample_objs) (finishing 5 6) 0 _ _ 1
                  {| db_Name := "report"; Driver := "";
                     LeaderConnConfig := sample_conn "leader-report";
                     ReplicaConnConfig := sample_conn "replica-report" |}
                  _ (sample_default_ok sample_objs) eq_refl eq_refl Hdone)).
Defined.

(** * Further properties of the bring-up and of the registry *)

Section KothakMore.

Variable ToLower : string -> string.
Variable World : Type.
Variable respond : forall c : call, World -> result (ret c) * World.
Variable close : handle -> World -> option error * World.

Implicit Types (st : state World) (p q : prog) (t : thread) (es : list event)
  (h : history) (a : commit) (i j : nat) (sched : list nat).

Local Abbreviation default_of kothakConfig :=
  (DBConfig_SetDefault (cfg_DBConfig kothakConfig)).

(** ** What the registry holds *)

Lemma registry_lookup_source kothakConfig sched (w : World) dbc w1 f name hd :
  respond (default_of kothakConfig) w = (Ok dbc, w1) ->
  registry_lookup (kothak (New ToLower respond kothakConfig sched w).2) f name
  = Some hd ->
  exists i r a,
    resources kothakConfig dbc !! i = Some r
    /\ slot_of r = (f, name)
    /\ pool (New ToLower respond kothakConfig sched w).2 !! i = Some (Done a)
    /\ installs a = Some (f, name, hd).
Proof.
  intros Hdef Hl.
  pose proof (New_consistent ToLower World respond kothakConfig sched w dbc w1
                Hdef) as Hc.
  destruct (cons_registered Hc f name hd Hl) as (i & a & Ha & Hi).
  destruct (New_resource ToLower World respond _ _ _ _ _ _ _ Hdef Ha)
    as [r Hr].
  exists i, r, a. split; [done|]. split; [|done].
  symmetry. by eapply New_done_slot.
Qed.

(** X1: whatever the schedule, and also while [group.Wait] still blocks, a
    name is bound in the registry only to a handle that the goroutine of a
    resource configured under this name in this family has installed. *)
Theorem registry_holds_only_configured_names kothakConfig sched (w : World) dbc w1 f name hd :
  respond (default_of kothakConfig) w = (Ok dbc, w1) ->
  let st := (New ToLower respond kothakConfig sched w).2 in
  registry_lookup (kothak st) f name = Some hd ->
  exists i r a,
    resources kothakConfig dbc !! i = Some r
    /\ slot_of r = (f, name)
    /\ pool st !! i = Some (Done a)
    /\ installs a = Some (f, name, hd).
Proof.
  intros Hdef st Hl.
  pose proof (New_consistent ToLower World respond kothakConfig sched w dbc w1
                Hdef) as Hc.
  fold st in Hc.
  destruct (cons_registered Hc f name hd Hl) as (i & a & Ha & Hi).
  destruct (New_resource ToLower World respond _ _ _ _ _ _ _ Hdef Ha)
    as [r Hr].
  exists i, r, a. split; [done|]. split; [|done].
  symmetry. by eapply New_done_slot.
Qed.

Lemma failures_nil (ts : list thread) :
  failures ts = [] <-> forall i e, ts !! i <> Some (Done (AppendErr e)).
Proof.
  split.
  - intros Hnil i e Hi.
    assert (e ∈ failures ts) as Hin; [|rewrite Hnil in Hin; by apply elem_of_nil in Hin].
    apply list_elem_of_omap. exists (Done (AppendErr e)). split; [|done].
    apply list_elem_of_lookup. by exists i.
  - intros Hno. destruct (failures ts) as [|e l] eqn:E; [done|exfalso].
    assert (e ∈ failures ts) as Hin by (rewrite E; by left).
    apply list_elem_of_omap in Hin as (t & Ht & He).
    apply list_elem_of_lookup in Ht as [i Ht].
    destruct t as [|[e'| | |]]; try done. injection He as ->.
    by apply (Hno i e).
Qed.

(** X2: [New] returns a nil error exactly when no goroutine ended in a
    failure. *)
Theorem New_nil_error_iff_no_failure kothakConfig sched (w : World) dbc w1 k err :
  respond (default_of kothakConfig) w = (Ok dbc, w1) ->
  (New ToLower respond kothakConfig sched w).1 = Returns k err ->
  err = None
  <-> forall i e, pool (New ToLower respond kothakConfig sched w).2 !! i
                  <> Some (Done (AppendErr e)).
Proof.
  intros Hdef Hret.
  destruct (New_returned ToLower World respond _ _ _ _ _ _ _ Hdef Hret)
    as (_ & -> & _).
  pose proof (New_consistent ToLower World respond kothakConfig sched w dbc w1
                Hdef) as Hc.
  rewrite <- failures_nil. pose proof (cons_failures Hc) as Hp.
  destruct (errs (New ToLower respond kothakConfig sched w).2) as [|e l].
  - apply Permutation_nil_l in Hp. rewrite <- Hp. by split.
  - split; [done|]. intros Hnil. rewrite Hnil in Hp.
    by apply Permutation_nil_r in Hp.
Qed.

Lemma length_failures_installed (ts : list thread) :
  length (failures ts) + length (installed ts)
  = length (List.filter is_done ts).
Proof.
  induction ts as [|[q|[e|n s|n r|n d]] ts IH]; simpl in *; lia.
Qed.

Lemma filter_all (ts : list thread) :
  forallb is_done ts = true -> List.filter is_done ts = ts.
Proof.
  induction ts as [|t ts IH]; simpl; [done|].
  destruct (is_done t); simpl; [|done]. intros H. by rewrite IH.
Qed.



(** ** Lookups after the bring-up *)

Lemma get_lookup (k : Kothak) (f : family) (name : string) :
  match registry_lookup k f name with
  | Some hd =>
      get k f name = ((Some hd, None), k) /\ mustGet k f name = (Value hd, k)
  | None =>
      (exists e, get k f name = ((None, Some e), k))
      /\ exists msg, mustGet k f name = (Fatalf msg, k)
  end.
Proof.
  destruct f; simpl;
    unfold GetObjectStorage, GetSQLDB, GetRedis,
      MustGetObjectStorage, MustGetSQLDB, MustGetRedis;
    [destruct (objStorages k !! name)|destruct (dbs k !! name)
    |destruct (rds k !! name)]; simpl; eauto.
Qed.


Lemma last_install_snoc f name h (x : option nat * event) :
  last_install f name (h ++ [x])
  = match x.2 with
    | EvCommit a =>
        match installs a with
        | Some (f', name', hd) =>
            if decide (f' = f /\ name' = name) then Some hd
            else last_install f name h
        | None => last_install f name h
        end
    | EvCall _ _ => last_install f name h
    end.
Proof. unfold last_install. by rewrite foldl_app. Qed.

Lemma last_install_step f name i st :
  registry_lookup (kothak st) f name = last_install f name (log st) ->
  registry_lookup (kothak (step respond i st)) f name
  = last_install f name (log (step respond i st)).
Proof.
  intros H. unfold step.
  destruct (pool st !! i) as [[[c k|a]|a]|]; try done.
  - destruct (respond c (world st)) as [r w']. simpl.
    by rewrite last_install_snoc.
  - pose proof (lookup_do_commit ToLower a (errs st) (kothak st) f name) as Hlk.
    destruct (do_commit a (errs st) (kothak st)) as [l k']. simpl in *.
    rewrite last_install_snoc, Hlk. simpl.
    destruct (installs a) as [[[f' name'] hd]|]; [|done].
    by case_decide.
Qed.

Lemma last_install_run f name sched : forall st,
  registry_lookup (kothak st) f name = last_install f name (log st) ->
  registry_lookup (kothak (run respond sched st)) f name
  = last_install f name (log (run respond sched st)).
Proof.
  induction sched as [|i sched IH]; intros st H; [done|].
  rewrite run_cons. by apply IH, last_install_step.
Qed.


(** ** The calls of a goroutine *)

Lemma replays_shape es : forall n p t,
  replays es p t -> bounded n p ->
  exists calls,
    Forall (fun e => exists c v, e = EvCall c v) calls
    /\ length calls <= n
    /\ ((es = calls /\ exists q, t = Running q)
        \/ exists a, es = calls ++ [EvCommit a] /\ t = Done a).
Proof.
  induction es as [|e es IH]; intros n p t H Hb; simpl in H.
  - exists []. split; [done|]. split; [simpl; lia|]. left. eauto.
  - destruct p as [c k|a].
    + destruct H as (r & -> & H). destruct n as [|n]; [done|].
      destruct (IH n _ _ H (Hb r)) as (calls & Hall & Hlen & Hshape).
      exists (EvCall c (to_retval c r) :: calls).
      split; [constructor; eauto|]. split; [simpl; lia|].
      destruct Hshape as [[-> Hq]|(a & -> & ->)]; [by left|right; eauto].
    + destruct H as (-> & -> & ->). exists []. split; [done|].
      split; [simpl; lia|]. right. eauto.
Qed.

Lemma sublog_unspawned kothakConfig sched (w : World) dbc w1 i :
  respond (default_of kothakConfig) w = (Ok dbc, w1) ->
  length (resources kothakConfig dbc) <= i ->
  sublog (Some i) (log (New ToLower respond kothakConfig sched w).2) = [].
Proof.
  intros Hdef Hi.
  pose proof (New_consistent ToLower World respond kothakConfig sched w dbc w1
                Hdef) as Hc.
  destruct (cons_main Hc) as (rest & Hlog & Hall).
  destruct (sublog _ _) as [|e l] eqn:E; [done|exfalso].
  assert (e ∈ sublog (Some i)
            (log (New ToLower respond kothakConfig sched w).2)) as Hin
    by (rewrite E; by left).
  apply list_elem_of_omap in Hin as ([who e'] & Hin & Heq). simpl in Heq.
  case_decide as Hwho; [|done]. simpl in Hwho. subst who.
  rewrite Hlog in Hin. apply elem_of_cons in Hin as [[=]|Hin].
  rewrite Forall_forall in Hall. destruct (Hall _ Hin) as (j & [= <-] & Hj).
  unfold units in Hj. rewrite length_fmap in Hj. lia.
Qed.



Lemma replays_only_calls (P : call -> Prop) es : forall p t,
  replays es p t -> only_calls P p ->
  forall c v, EvCall c v ∈ es -> P c.
Proof.
  induction es as [|e es IH]; intros p t H Hn c v Hin; simpl in *.
  - by apply elem_of_nil in Hin.
  - destruct p as [c0 k|b]; simpl in Hn.
    + destruct H as (r & -> & H). destruct Hn as [Hc Hn].
      apply elem_of_cons in Hin as [[= -> _]|Hin]; [done|].
      by eapply IH.
    + destruct H as (-> & -> & _). by apply list_elem_of_singleton in Hin.
Qed.

Lemma only_calls_try (P : call -> Prop) c (k : ret c -> prog) :
  P c -> (forall v, only_calls P (k v)) -> only_calls P (try_call c k).
Proof. intros Hc Hk. split; [done|]. intros [v|e]; [apply Hk|done]. Qed.

Lemma unit_only_configured_calls kothakConfig dbc r :
  r ∈ resources kothakConfig dbc ->
  only_calls (configured_call kothakConfig dbc)
    (unit_of ToLower kothakConfig dbc r).
Proof.
  unfold resources. rewrite !elem_of_app, !list_elem_of_fmap.
  intros [(config & -> & Hin)|[(redisconfig & -> & Hin)|(dbconfig & -> & Hin)]];
    cbn [unit_of].
  - unfold objStorage_unit. repeat case_decide;
      repeat (apply only_calls_try; [simpl; eauto 10|intros ?]); done.
  - unfold redis_unit. apply only_calls_try; [simpl; eauto|done].
  - unfold db_unit. do 2 (apply only_calls_try; [simpl; eauto|intros ?]).
    case_decide;
      repeat (apply only_calls_try; [simpl; eauto|intros ?]); done.
Qed.


(** ** Edge cases and scheduling *)

Lemma run_empty_pool sched : forall st,
  pool st = [] -> run respond sched st = st.
Proof.
  induction sched as [|i sched IH]; intros st H; [done|].
  rewrite run_cons. unfold step. rewrite H. simpl. by apply IH.
Qed.

(** X8: with nothing to bring up, [New] returns an empty registry and a
    nil error at once, whatever the schedule. *)
Theorem New_without_resources kothakConfig sched (w : World) dbc w1 :
  respond (default_of kothakConfig) w = (Ok dbc, w1) ->
  resources kothakConfig dbc = [] ->
  (New ToLower respond kothakConfig sched w).1
  = Returns (Some empty_Kothak) None.
Proof.
  intros Hdef Hnil.
  destruct (New_default_ok ToLower World respond kothakConfig sched w dbc w1
              Hdef) as [Hst ->].
  rewrite Hst, run_empty_pool; simpl; unfold units; by rewrite Hnil.
Qed.

Lemma errs_step_prefix i st : errs st `prefix_of` errs (step respond i st).
Proof.
  unfold step. destruct (pool st !! i) as [[[c k|a]|a]|]; try done.
  - by destruct (respond c (world st)).
  - destruct a; simpl; try done. by apply prefix_app_r.
Qed.

Lemma errs_run_prefix sched : forall st,
  errs st `prefix_of` errs (run respond sched st).
Proof.
  induction sched as [|i sched IH]; intros st; [done|].
  rewrite run_cons. etrans; [apply errs_step_prefix|apply IH].
Qed.



Lemma unique_slot kothakConfig dbc i r :
  NoDup (slot_of <$> resources kothakConfig dbc) ->
  resources kothakConfig dbc !! i = Some r ->
  forall j r', resources kothakConfig dbc !! j = Some r' ->
               slot_of r' = slot_of r -> j = i.
Proof.
  intros Hnd Hr j r' Hr' Hs.
  eapply (proj1 (NoDup_alt _) Hnd j i (slot_of r));
    rewrite list_lookup_fmap; [rewrite Hr'; simpl; by rewrite Hs|by rewrite Hr].
Qed.

Lemma registry_lookup_ext (k1 k2 : Kothak) :
  (forall f name, registry_lookup k1 f name = registry_lookup k2 f name) ->
  k1 = k2.
Proof.
  intros H. destruct k1 as [o1 d1 r1], k2 as [o2 d2 r2]. f_equal.
  - apply map_eq. intros name. specialize (H ObjectStorage name). simpl in H.
    destruct (o1 !! name), (o2 !! name); simpl in H; congruence.
  - apply map_eq. intros name. specialize (H SQLDB name). simpl in H.
    destruct (d1 !! name), (d2 !! name); simpl in H; congruence.
  - apply map_eq. intros name. specialize (H Redis name). simpl in H.
    destruct (r1 !! name), (r2 !! name); simpl in H; congruence.
Qed.

(** *** A deterministic environment *)

Section Deterministic.

(** The environment answers a call the same way whenever it is made. *)
Variable answer : forall c : call, result (ret c).
Hypothesis respond_answer : forall c (w : World), (respond c w).1 = answer c.

Lemma follows_start p : follows answer p (Running p).
Proof. destruct p; by left. Qed.

Lemma follows_call : forall p c k,
  follows answer p (Running (Call c k)) ->
  follows answer p (Running (k (answer c))).
Proof.
  induction p as [c0 k0 IH|a]; intros c k [H|H].
  - assert (Call c0 k0 = Call c k) as -> by congruence.
    right. apply follows_start.
  - right. by apply IH.
  - done.
  - done.
Qed.

Lemma follows_leaf : forall p a,
  follows answer p (Running (Leaf a)) -> follows answer p (Done a).
Proof.
  induction p as [c0 k0 IH|b]; intros a [H|H]; simpl.
  - done.
  - right. by apply IH.
  - injection H as ->. by right.
  - done.
Qed.

Lemma follows_done : forall p a,
  follows answer p (Done a) -> a = final answer p.
Proof.
  induction p as [c0 k0 IH|b]; intros a [H|H]; simpl; try done.
  - by apply IH.
  - by injection H.
Qed.

Lemma follows_step (ps : list prog) i st :
  (forall j p, ps !! j = Some p ->
     exists t, pool st !! j = Some t /\ follows answer p t) ->
  forall j p, ps !! j = Some p ->
    exists t, pool (step respond i st) !! j = Some t /\ follows answer p t.
Proof.
  intros H j p Hp. destruct (H j p Hp) as (t & Ht & Hf).
  destruct (decide (i = j)) as [->|Hne];
    [|exists t; by rewrite step_other].
  unfold step. rewrite Ht. destruct t as [[c k|a]|a]; [| |by exists (Done a)].
  - pose proof (respond_answer c (world st)) as Hr.
    destruct (respond c (world st)) as [r w']. simpl in *. subst r.
    exists (Running (k (answer c))).
    rewrite list_lookup_insert_eq by (by eapply lookup_lt_Some).
    split; [done|]. by apply follows_call.
  - destruct (do_commit a (errs st) (kothak st)). simpl. exists (Done a).
    rewrite list_lookup_insert_eq by (by eapply lookup_lt_Some).
    split; [done|]. by apply follows_leaf.
Qed.

Lemma follows_run (ps : list prog) sched : forall st,
  (forall j p, ps !! j = Some p ->
     exists t, pool st !! j = Some t /\ follows answer p t) ->
  forall j p, ps !! j = Some p ->
    exists t, pool (run respond sched st) !! j = Some t /\ follows answer p t.
Proof.
  induction sched as [|i sched IH]; intros st H; [done|].
  rewrite run_cons. by apply IH, follows_step.
Qed.

Lemma New_pool_deterministic kothakConfig sched (w : World) dbc w1 k err :
  respond (default_of kothakConfig) w = (Ok dbc, w1) ->
  (New ToLower respond kothakConfig sched w).1 = Returns k err ->
  pool (New ToLower respond kothakConfig sched w).2
  = (fun p => Done (final answer p)) <$> units ToLower kothakConfig dbc.
Proof.
  intros Hdef Hret.
  destruct (New_returned ToLower World respond _ _ _ _ _ _ _ Hdef Hret)
    as (_ & _ & Hdone).
  pose proof (New_consistent ToLower World respond kothakConfig sched w dbc w1
                Hdef) as Hc.
  destruct (New_default_ok ToLower World respond kothakConfig sched w dbc w1
              Hdef) as [Hst _].
  apply list_eq. intros i. rewrite list_lookup_fmap.
  destruct (units ToLower kothakConfig dbc !! i) as [p|] eqn:Hp; simpl.
  - destruct (follows_run (units ToLower kothakConfig dbc) sched
                (spawned ToLower kothakConfig dbc w1)) with i p
      as (t & Ht & Hf); [|done|].
    + intros j q Hq. exists (Running q). simpl.
      rewrite list_lookup_fmap, Hq. split; [done|apply follows_start].
    + rewrite <- Hst in Ht. destruct (Hdone _ _ Ht) as [a ->].
      by rewrite Ht, (follows_done _ _ Hf).
  - apply lookup_ge_None. rewrite (cons_length Hc). by apply lookup_ge_None.
Qed.


End Deterministic.


(** ** How many handles the registry holds *)

Lemma New_snoc kothakConfig sched i (w : World) dbc w1 :
  respond (default_of kothakConfig) w = (Ok dbc, w1) ->
  (New ToLower respond kothakConfig (sched ++ [i]) w).2
  = step respond i (New ToLower respond kothakConfig sched w).2.
Proof.
  intros Hdef.
  destruct (New_default_ok ToLower World respond kothakConfig (sched ++ [i])
              w dbc w1 Hdef) as [-> _].
  destruct (New_default_ok ToLower World respond kothakConfig sched
              w dbc w1 Hdef) as [-> _].
  by rewrite run_app.
Qed.

Lemma installed_insert_running (ts : list thread) i p q :
  ts !! i = Some (Running p) ->
  installed (<[i := Running q]> ts) = installed ts.
Proof.
  intros H. rewrite insert_take_drop by (by eapply lookup_lt_Some).
  set (l1 := take i ts). set (l2 := drop (S i) ts).
  assert (ts = l1 ++ Running p :: l2) as Hts
    by (symmetry; by apply take_drop_middle).
  rewrite Hts. unfold installed. by rewrite !omap_app.
Qed.

Lemma installed_insert_done (ts : list thread) i p a :
  ts !! i = Some (Running p) ->
  length (installed (<[i := Done a]> ts))
  = length (installed ts) + match installs a with Some _ => 1 | None => 0 end.
Proof.
  intros H. rewrite insert_take_drop by (by eapply lookup_lt_Some).
  set (l1 := take i ts). set (l2 := drop (S i) ts).
  assert (ts = l1 ++ Running p :: l2) as Hts
    by (symmetry; by apply take_drop_middle).
  rewrite Hts. unfold installed. rewrite !omap_app, !length_app. simpl.
  destruct (installs a); simpl; lia.
Qed.

Lemma installed_spawned (ps : list prog) : installed (Running <$> ps) = [].
Proof. induction ps as [|p ps IH]; simpl; done. Qed.

Lemma registry_size_do_commit a (l : list error) (k : Kothak) :
  match installs a with
  | Some (f, name, _) =>
      registry_lookup k f name = None ->
      registry_size (do_commit a l k).2 = S (registry_size k)
  | None => registry_size (do_commit a l k).2 = registry_size k
  end.
Proof.
  destruct a as [e|n s|n r|n d]; simpl; [done|..]; unfold registry_size; simpl;
    intros H.
  - destruct (objStorages k !! n) eqn:E; [done|].
    rewrite map_size_insert_None by done. lia.
  - destruct (rds k !! n) eqn:E; [done|].
    rewrite map_size_insert_None by done. lia.
  - destruct (dbs k !! n) eqn:E; [done|].
    rewrite map_size_insert_None by done. lia.
Qed.

Lemma registry_size_New kothakConfig (w : World) dbc w1 :
  respond (default_of kothakConfig) w = (Ok dbc, w1) ->
  NoDup (slot_of <$> resources kothakConfig dbc) ->
  forall sched,
    registry_size (kothak (New ToLower respond kothakConfig sched w).2)
    = length (installed (pool (New ToLower respond kothakConfig sched w).2)).
Proof.
  intros Hdef Hnd sched. induction sched as [|i sched IH] using rev_ind.
  - destruct (New_default_ok ToLower World respond kothakConfig [] w dbc w1
                Hdef) as [-> _].
    simpl. by rewrite installed_spawned.
  - pose proof (New_snoc kothakConfig sched i w dbc w1 Hdef) as Hsnoc.
    set (st := (New ToLower respond kothakConfig sched w).2) in *.
    set (st' := (New ToLower respond kothakConfig (sched ++ [i]) w).2) in *.
    assert (forall a, pool st' !! i = Some (Done a) ->
                      pool st !! i = Some (Running (Leaf a)) ->
                      forall f name hd, installs a = Some (f, name, hd) ->
                      registry_lookup (kothak st) f name = None) as Hfresh.
    { intros a Ha' Ha f name hd Hi.
      destruct (registry_lookup (kothak st) f name) as [hd'|] eqn:Hl; [|done].
      exfalso.
      destruct (registry_lookup_source kothakConfig sched w dbc w1 f name hd'
                  Hdef Hl) as (j & r' & b & Hr' & Hs' & Hb & _).
      destruct (New_resource ToLower World respond _ _ _ _ _ _ _ Hdef Ha')
        as [r Hr].
      pose proof (New_done_slot ToLower World respond kothakConfig
                    (sched ++ [i]) w dbc w1 i r a f name hd Hdef Hr Ha' Hi)
        as Hs.
      assert (j = i) as -> by (eapply unique_slot; [done..|congruence]).
      fold st in Hb. congruence. }
    revert Hfresh. rewrite Hsnoc. unfold step.
    destruct (pool st !! i) as [[[c k|a]|a]|] eqn:E; try (intros _; exact IH).
    + destruct (respond c (world st)) as [r w']. simpl. intros _.
      by erewrite installed_insert_running.
    + pose proof (registry_size_do_commit a (errs st) (kothak st)) as Hsz.
      destruct (do_commit a (errs st) (kothak st)) as [l k']. simpl in *.
      intros Hfresh. rewrite (installed_insert_done _ _ _ _ E).
      destruct (installs a) as [[[f name] hd]|] eqn:Hi; [|lia].
      rewrite Hsz, IH; [lia|].
      eapply Hfresh; [|done..].
      by rewrite list_lookup_insert_eq by (by eapply lookup_lt_Some).
Qed.

Lemma New_accounting kothakConfig sched (w : World) dbc w1 k err :
  respond (default_of kothakConfig) w = (Ok dbc, w1) ->
  (New ToLower respond kothakConfig sched w).1 = Returns k err ->
  length (errs (New ToLower respond kothakConfig sched w).2)
  + length (installed (pool (New ToLower respond kothakConfig sched w).2))
  = length (resources kothakConfig dbc).
Proof.
  intros Hdef Hret.
  pose proof (New_consistent ToLower World respond kothakConfig sched w dbc w1
                Hdef) as Hc.
  rewrite (cons_failures Hc), length_failures_installed.
  destruct (New_default_ok ToLower World respond kothakConfig sched w dbc w1
              Hdef) as [_ Heq].
  rewrite Heq in Hret.
  destruct (forallb is_done (pool (New ToLower respond kothakConfig sched w).2))
    eqn:Hall; [|done].
  rewrite filter_all by done. rewrite (cons_length Hc).
  unfold units. by rewrite length_fmap.
Qed.


Lemma ok_log_step i st :
  (forall c (w : World), exists v, (respond c w).1 = Ok v) ->
  Forall (fun x => is_failure x.2 = false) (log st) ->
  Forall (fun x => is_failure x.2 = false) (log (step respond i st)).
Proof.
  intros Hok H. unfold step.
  destruct (pool st !! i) as [[[c k|a]|a]|]; try done.
  - destruct (Hok c (world st)) as [v Hv].
    destruct (respond c (world st)) as [r w']. simpl in *. subst r.
    apply Forall_app. split; [done|]. apply Forall_singleton. simpl.
    by destruct c.
  - destruct (do_commit a (errs st) (kothak st)). simpl.
    apply Forall_app. split; [done|]. by apply Forall_singleton.
Qed.

Lemma ok_log_run sched : forall st,
  (forall c (w : World), exists v, (respond c w).1 = Ok v) ->
  Forall (fun x => is_failure x.2 = false) (log st) ->
  Forall (fun x => is_failure x.2 = false) (log (run respond sched st)).
Proof.
  induction sched as [|i sched IH]; intros st Hok H; [done|].
  rewrite run_cons. by apply IH, ok_log_step.
Qed.



(** ** Object storage and cache goroutines *)

Ltac replay_cases H :=
  repeat match type of H with
    | replays _ (try_call _ _) (Done _) =>
        apply replays_try_done in H;
        destruct H as [(? & ? & ?)|(? & ? & ? & H)]
    | replays _ (Leaf _) (Done _) =>
        apply replays_leaf_done in H; destruct H as [? ?]
    | replays _ (if decide ?P then _ else _) _ => destruct (decide P)
    end.

(** X13: the storage an object-storage goroutine installs wraps the
    provider its last call returned: [local.New] on ["./" + bucket] for the
    local provider; for gcs and for the S3 family the connect call on the
    configuration built from the credentials loaded just before, with the
    bucket settings of the entry. *)
Theorem objStorage_goroutine_installs_its_provider kothakConfig sched (w : World) dbc w1 i config name s :
  respond (default_of kothakConfig) w = (Ok dbc, w1) ->
  cfg_ObjectStorageConfig kothakConfig !! i = Some config ->
  let st := (New ToLower respond kothakConfig sched w).2 in
  let es := sublog (Some i) (log st) in
  let p := ToLower (Provider config) in
  pool st !! i = Some (Done (SetObjStorage name s)) ->
  name = os_Name config
  /\ ((p = StorageLocal
       /\ es = [EvCall (local_New ("./" +:+ Bucket config) false)
                  (RRef (st_provider s));
                EvCommit (SetObjStorage name s)])
      \/ (p = StorageGCS
          /\ exists creds base,
               es = [EvCall (gcs_CredentialsFromFile (JSONKey (GCS config)))
                       (RRef creds);
                     EvCall (gcs_NewConfig creds) (RRef base);
                     EvCall (gcs_New {| gcs_base := base;
                                        gcs_Bucket := Bucket config;
                                        gcs_BucketProto := BucketProto config;
                                        gcs_BucketURL := BucketURL config |})
                       (RRef (st_provider s));
                     EvCommit (SetObjStorage name s)])
      \/ ((p = StorageS3 \/ p = StorageDO \/ p = StorageMinio)
          /\ exists creds base,
               es = [EvCall (s3_CredentialsFromClient (ClientID (S3 config))
                               (ClientSecret (S3 config)) "") (RRef creds);
                     EvCall (s3_NewConfig creds) (RRef base);
                     EvCall (s3_New {| s3_base := base;
                                       s3_Bucket := Bucket config;
                                       s3_BucketProto := BucketProto config;
                                       s3_BucketURL := BucketURL config;
                                       s3_Region := Region config;
                                       s3_Endpoint := Endpoint config;
                                       s3_DisableSSL := DisableSSL (S3 config);
                                       s3_ForcePathStyle :=
                                         ForcePathStyle (S3 config) |})
                       (RRef (st_provider s));
                     EvCommit (SetObjStorage name s)])).
Proof.
  intros Hdef Hcfg st es p Hdone.
  destruct (New_thread ToLower World respond kothakConfig sched w dbc w1 i _
              Hdef (resources_objStorage kothakConfig dbc i config Hcfg))
    as (t & Ht & Hrep).
  fold st in Ht, Hrep. fold es in Hrep. rewrite Hdone in Ht.
  injection Ht as <-. clearbody es. cbn [unit_of] in Hrep.
  unfold objStorage_unit in Hrep. fold p in Hrep. clearbody p.
  replay_cases Hrep; simplify_eq; simpl; (split; [done|]).
  - by left.
  - right; left. eauto.
  - right; right. eauto.
Qed.

Lemma resources_redis kothakConfig dbc idx redisconfig :
  Rds (cfg_RedisConfig kothakConfig) !! idx = Some redisconfig ->
  resources kothakConfig dbc
    !! (length (cfg_ObjectStorageConfig kothakConfig) + idx)
  = Some (RRedis redisconfig).
Proof.
  intros H. unfold resources.
  rewrite lookup_app_r by (rewrite length_fmap; lia).
  rewrite length_fmap. replace (_ + idx - _) with idx by lia.
  apply lookup_app_l_Some. by rewrite list_lookup_fmap, H.
Qed.

(** X14: a cache goroutine makes exactly one call, [redigo.New] on the
    address of its entry with the family-wide pool settings, and then
    either installs the connection it returned under the entry's name or
    appends the error it returned. *)
Theorem redis_goroutine_connects_once kothakConfig sched (w : World) dbc w1 idx redisconfig a :
  respond (default_of kothakConfig) w = (Ok dbc, w1) ->
  Rds (cfg_RedisConfig kothakConfig) !! idx = Some redisconfig ->
  let i := length (cfg_ObjectStorageConfig kothakConfig) + idx in
  let st := (New ToLower respond kothakConfig sched w).2 in
  let connect :=
    redigo_New (Address redisconfig)
      {| rg_MaxActive := MaxActive (cfg_RedisConfig kothakConfig);
         rg_MaxIdle := MaxIdle (cfg_RedisConfig kothakConfig);
         rg_Timeout := Timeout (cfg_RedisConfig kothakConfig) |} in
  pool st !! i = Some (Done a) ->
  (exists r, a = SetRedis (rd_Name redisconfig) r
             /\ sublog (Some i) (log st)
                = [EvCall connect (RRef r); EvCommit a])
  \/ (exists e, a = AppendErr e
                /\ sublog (Some i) (log st)
                   = [EvCall connect (RErr e); EvCommit a]).
Proof.
  intros Hdef Hcfg i st connect Hdone.
  destruct (New_thread ToLower World respond kothakConfig sched w dbc w1 i _
              Hdef (resources_redis kothakConfig dbc idx redisconfig Hcfg))
    as (t & Ht & Hrep).
  fold st in Ht, Hrep. rewrite Hdone in Ht. injection Ht as <-.
  set (es := sublog (Some i) (log st)) in *. clearbody es.
  cbn [unit_of] in Hrep. unfold redis_unit in Hrep.
  replay_cases Hrep; simplify_eq; simpl; [right|left]; eauto.
Qed.

End KothakMore.

(** * The further properties on concrete runs *)

Lemma sample_slots_unique :
  NoDup (slot_of <$> resources (sample_config sample_objs)
                       (cfg_DBConfig (sample_config sample_objs))).
Proof. apply (bool_decide_unpack _). vm_compute. exact I. Defined.

Lemma registry_holds_only_configured_names_witness :
  registry_lookup (kothak sample_run.2) ObjectStorage "assets"
  = Some (HStorage {| st_provider := 0 |})
  /\ exists i r a,
       resources (sample_config sample_objs)
         (cfg_DBConfig (sample_config sample_objs)) !! i = Some r
       /\ slot_of r = (ObjectStorage, "assets")
       /\ pool sample_run.2 !! i = Some (Done a)
       /\ installs a
          = Some (ObjectStorage, "assets", HStorage {| st_provider := 0 |}).
Proof.
  assert (registry_lookup (kothak sample_run.2) ObjectStorage "assets"
          = Some (HStorage {| st_provider := 0 |})) as Hl
    by (vm_compute; reflexivity).
  split; [exact Hl|].
  exact (registry_holds_only_configured_names ascii_ToLower nat respond_ok
           (sample_config sample_objs) (finishing 5 6) 0 _ _ _ _ _
           (sample_default_ok sample_objs) Hl).
Defined.

Lemma New_nil_error_iff_no_failure_witness :
  sample_run.1
  = Returns (Some (kothak sample_run.2)) (Some provider_not_found)
  /\ (Some provider_not_found = None
      <-> forall i e, pool sample_run.2 !! i <> Some (Done (AppendErr e))).
Proof.
  assert (sample_run.1
          = Returns (Some (kothak sample_run.2)) (Some provider_not_found))
    as Hret by (vm_compute; reflexivity).
  split; [exact Hret|].
  exact (New_nil_error_iff_no_failure ascii_ToLower nat respond_ok
           (sample_config sample_objs) (finishing 5 6) 0 _ _ _ _
           (sample_default_ok sample_objs) Hret).
Defined.






Lemma New_without_resources_witness :
  resources empty_config (cfg_DBConfig empty_config) = []
  /\ (New ascii_ToLower respond_ok empty_config [0; 1; 0] 0).1
     = Returns (Some empty_Kothak) None.
Proof.
  split; [reflexivity|].
  exact (New_without_resources ascii_ToLower nat respond_ok empty_config
           [0; 1; 0] 0 (cfg_DBConfig empty_config) 0 eq_refl eq_refl).
Defined.

Lemma refused_default_ok :
  respond_failing (fail_connect "leader-report")
    (DBConfig_SetDefault (cfg_DBConfig (sample_config sample_objs))) 0
  = (Ok (cfg_DBConfig (sample_config sample_objs)), 0).
Proof. reflexivity. Defined.


Lemma fixed_default_ok :
  respond_fixed (DBConfig_SetDefault (cfg_DBConfig (sample_config sample_objs)))
    tt
  = (Ok (cfg_DBConfig (sample_config sample_objs)), tt).
Proof. reflexivity. Defined.




Lemma objStorage_goroutine_installs_its_provider_witness :
  pool sample_run.2 !! 2
  = Some (Done (SetObjStorage "media" {| st_provider := 3 |}))
  /\ "media" = os_Name (sample_objStorage "media" "MinIO").
Proof.
  assert (pool sample_run.2 !! 2
          = Some (Done (SetObjStorage "media" {| st_provider := 3 |})))
    as Hdone by (vm_compute; reflexivity).
  split; [exact Hdone|].
  exact (proj1 (objStorage_goroutine_installs_its_provider ascii_ToLower nat
                  respond_ok (sample_config sample_objs) (finishing 5 6) 0
                  _ _ 2 (sample_objStorage "media" "MinIO") _ _
                  (sample_default_ok sample_objs) eq_refl Hdone)).
Defined.

Lemma redis_goroutine_connects_once_witness :
  pool sample_run.2 !! 3 = Some (Done (SetRedis "session" 4))
  /\ ((exists r, SetRedis "session" 4 = SetRedis "session" r
                 /\ sublog (Some 3) (log sample_run.2)
                    = [EvCall (redigo_New "localhost:6379"
                                 {| rg_MaxActive := 8; rg_MaxIdle := 4;
                                    rg_Timeout := 30 |}) (RRef r);
                       EvCommit (SetRedis "session" 4)])
      \/ (exists e, SetRedis "session" 4 = AppendErr e
                    /\ sublog (Some 3) (log sample_run.2)
                       = [EvCall (redigo_New "localhost:6379"
                                    {| rg_MaxActive := 8; rg_MaxIdle := 4;
                                       rg_Timeout := 30 |}) (RErr e);
                          EvCommit (SetRedis "session" 4)])).
Proof.
  assert (pool sample_run.2 !! 3 = Some (Done (SetRedis "session" 4)))
    as Hdone by (vm_compute; reflexivity).
  split; [exact Hdone|].
  exact (redis_goroutine_connects_once ascii_ToLower nat respond_ok
           (sample_config sample_objs) (finishing 5 6) 0 _ _ 0
           {| rd_Name := "session"; Address := "localhost:6379" |} _
           (sample_default_ok sample_objs) eq_refl Hdone).
Defined.
